(** * TeenyJVM: the bytecode interpreter of [jvm.c]

    A shallow embedding of [execute] (src/jvm.c, lines 45-399) and the
    properties of its instruction set.

    Conventions of the embedding.
    - [int32_t], [int16_t], [int8_t] values are integers of [Z]; every
      conversion and every arithmetic result is wrapped to its width
      ([int32], [int16], [int8]).  Overflow of [+], [-], [*], of a
      negation and of a left shift by less than 32 is the two's-complement
      wrap-around the compiled program has.
    - [size_t] values ([pc], [idx]) are integers of [Z] reduced modulo
      [2^64] after every update ([size_t]).
    - A C array is a [list Z].  Where C leaves the behaviour undefined and
      the program has no wrap-around to offer (an access outside an array,
      the division of [INT_MIN] by -1, a shift by 32 or more) the outcome
      is [Undefined]: it says that the run reached that operation, and
      nothing about what the machine does from there.
    - [assert] is compiled in, and a failed [assert] is the outcome
      [Fault].
    - [printf("%i\n", v)] appends [v] to the list of printed lines.
    - The recursion of [execute] and its [while] loop are bounded by a
      fuel; [Timeout] is the answer of the model when the fuel runs out,
      it is not a behaviour of the program. *)

From stdpp Require Import base list.
From Stdlib Require Import ZArith Lia.
Local Open Scope Z_scope.

(** ** Machine integers *)

(** The signed [w]-bit integer congruent to [x] modulo [2^w]. *)
Definition wrap (w x : Z) : Z := (x + 2 ^ (w - 1)) mod 2 ^ w - 2 ^ (w - 1).

Definition int8 (x : Z) : Z := wrap 8 x.
Definition int16 (x : Z) : Z := wrap 16 x.
Definition int32 (x : Z) : Z := wrap 32 x.

(** Conversion to the unsigned types [u4] and [size_t]. *)
Definition u4 (x : Z) : Z := x mod 2 ^ 32.
Definition size_t (x : Z) : Z := x mod 2 ^ 64.

(** [(int16_t)(b1 << 8 | b2)]: the big-endian 16-bit immediate. *)
Definition imm16 (b1 b2 : Z) : Z := int16 (Z.lor (Z.shiftl b1 8) b2).

(** ** Results *)

Inductive result (A : Type) : Type :=
| Ok (a : A)
| Fault
| Undefined
| Timeout.
Arguments Ok {A} a.
Arguments Fault {A}.
Arguments Undefined {A}.
Arguments Timeout {A}.

Definition bind {A B : Type} (r : result A) (k : A -> result B) : result B :=
  match r with
  | Ok a => k a
  | Fault => Fault
  | Undefined => Undefined
  | Timeout => Timeout
  end.

Notation "x <- e ;; k" := (bind e (fun x => k))
  (at level 100, e at next level, right associativity).

(** [assert(c)] *)
Definition assert (c : bool) : result unit := if c then Ok tt else Fault.

(** An operation C defines only when [c] holds. *)
Definition defined (c : bool) : result unit :=
  if c then Ok tt else Undefined.

(** [a / b] and [a % b] are undefined in C when the quotient does not fit
    [int32_t], which is the case of [INT_MIN] and -1 only. *)
Definition division_overflows (a b : Z) : bool :=
  (a =? - 2 ^ 31) && (b =? -1).

(** ** Arrays *)

(** [a[i]] as an rvalue. *)
Definition load (a : list Z) (i : Z) : result Z :=
  if 0 <=? i then
    match a !! Z.to_nat i with
    | Some v => Ok v
    | None => Undefined
    end
  else Undefined.

(** [a[i] = v] *)
Definition store (a : list Z) (i v : Z) : result (list Z) :=
  if (0 <=? i) && (i <? Z.of_nat (length a)) then Ok (<[Z.to_nat i := v]> a)
  else Undefined.

(** [calloc(nmemb, size)] for an array of [int32_t]: [nmemb] zeroes.  When
    [nmemb * size] does not fit [size_t] the call returns [NULL], which is
    the array without any cell. *)
Definition calloc (nmemb size : Z) : list Z :=
  if nmemb * size <? 2 ^ 64 then replicate (Z.to_nat nmemb) 0 else [].

(** ** The class image (read_class.h) *)

Record code_t : Type := {
  max_stack : Z;
  max_locals : Z;
  code : list Z
}.

(** Modelled from the spec: [code_length], a field of the structure the
    class reader fills; the reader allocates [code] with [code_length]
    bytes. *)
Definition code_length (c : code_t) : Z := Z.of_nat (length (code c)).

Record method_t : Type := {
  n_params : Z;
  mcode : code_t
}.

Inductive cp_info : Type :=
| CONSTANT_Integer_info (bytes : Z)
| CONSTANT_Methodref_info (target : nat)
| CONSTANT_other.

Record class_file_t : Type := {
  constant_pool : list cp_info;
  methods : list method_t
}.

(** Modelled from the spec: [find_method_from_index] of the class reader,
    which resolves the constant-pool method reference at the 1-based
    [index] to a method of the same class; [None] is [NULL]. *)
Definition find_method_from_index (index : Z) (class : class_file_t)
  : option method_t :=
  if 1 <=? index then
    match constant_pool class !! Z.to_nat (index - 1) with
    | Some (CONSTANT_Methodref_info k) => methods class !! k
    | _ => None
    end
  else None.

(** Modelled from the spec: [get_number_of_parameters] of the class reader,
    the number of parameter slots the descriptor of the method declares. *)
Definition get_number_of_parameters (m : method_t) : Z := n_params m.

(** [class->constant_pool[i].info] read as a [CONSTANT_Integer_info]. *)
Definition constant_integer (class : class_file_t) (i : Z) : result Z :=
  if 0 <=? i then
    match constant_pool class !! Z.to_nat i with
    | Some (CONSTANT_Integer_info bytes) => Ok bytes
    | _ => Undefined
    end
  else Undefined.

(** ** The heap (heap.h) *)

Definition heap_t : Type := list (list Z).

(** Modelled from the spec: [heap_add], which appends the array to the heap
    and returns its index; references are issued from 0 upwards. *)
Definition heap_add (heap : heap_t) (arr : list Z) : heap_t * Z :=
  (heap ++ [arr], Z.of_nat (length heap)).

(** Modelled from the spec: [heap_get], the array owned at index [ref];
    a reference that was never issued has no array. *)
Definition heap_get (heap : heap_t) (ref : Z) : result (list Z) :=
  if 0 <=? ref then
    match heap !! Z.to_nat ref with
    | Some arr => Ok arr
    | None => Undefined
    end
  else Undefined.

(** The effect on the heap of a write through the pointer [heap_get]
    returned for [ref]. *)
Definition heap_put (heap : heap_t) (ref : Z) (arr : list Z) : heap_t :=
  <[Z.to_nat ref := arr]> heap.

(** ** Opcodes (jvm.h) *)

(** Modelled from the spec: the opcode constants of [jvm.h], with the
    values of the Java class-file format. *)
Abbreviation i_nop := 0 (only parsing).
Abbreviation i_iconst_m1 := 2 (only parsing).
Abbreviation i_iconst_0 := 3 (only parsing).
Abbreviation i_iconst_1 := 4 (only parsing).
Abbreviation i_iconst_2 := 5 (only parsing).
Abbreviation i_iconst_3 := 6 (only parsing).
Abbreviation i_iconst_4 := 7 (only parsing).
Abbreviation i_iconst_5 := 8 (only parsing).
Abbreviation i_bipush := 16 (only parsing).
Abbreviation i_sipush := 17 (only parsing).
Abbreviation i_ldc := 18 (only parsing).
Abbreviation i_iload := 21 (only parsing).
Abbreviation i_aload := 25 (only parsing).
Abbreviation i_iload_0 := 26 (only parsing).
Abbreviation i_iload_1 := 27 (only parsing).
Abbreviation i_iload_2 := 28 (only parsing).
Abbreviation i_iload_3 := 29 (only parsing).
Abbreviation i_aload_0 := 42 (only parsing).
Abbreviation i_aload_1 := 43 (only parsing).
Abbreviation i_aload_2 := 44 (only parsing).
Abbreviation i_aload_3 := 45 (only parsing).
Abbreviation i_iaload := 46 (only parsing).
Abbreviation i_istore := 54 (only parsing).
Abbreviation i_astore := 58 (only parsing).
Abbreviation i_istore_0 := 59 (only parsing).
Abbreviation i_istore_1 := 60 (only parsing).
Abbreviation i_istore_2 := 61 (only parsing).
Abbreviation i_istore_3 := 62 (only parsing).
Abbreviation i_astore_0 := 75 (only parsing).
Abbreviation i_astore_1 := 76 (only parsing).
Abbreviation i_astore_2 := 77 (only parsing).
Abbreviation i_astore_3 := 78 (only parsing).
Abbreviation i_iastore := 79 (only parsing).
Abbreviation i_dup := 89 (only parsing).
Abbreviation i_iadd := 96 (only parsing).
Abbreviation i_isub := 100 (only parsing).
Abbreviation i_imul := 104 (only parsing).
Abbreviation i_idiv := 108 (only parsing).
Abbreviation i_irem := 112 (only parsing).
Abbreviation i_ineg := 116 (only parsing).
Abbreviation i_ishl := 120 (only parsing).
Abbreviation i_ishr := 122 (only parsing).
Abbreviation i_iushr := 124 (only parsing).
Abbreviation i_iand := 126 (only parsing).
Abbreviation i_ior := 128 (only parsing).
Abbreviation i_ixor := 130 (only parsing).
Abbreviation i_iinc := 132 (only parsing).
Abbreviation i_ifeq := 153 (only parsing).
Abbreviation i_ifne := 154 (only parsing).
Abbreviation i_iflt := 155 (only parsing).
Abbreviation i_ifge := 156 (only parsing).
Abbreviation i_ifgt := 157 (only parsing).
Abbreviation i_ifle := 158 (only parsing).
Abbreviation i_if_icmpeq := 159 (only parsing).
Abbreviation i_if_icmpne := 160 (only parsing).
Abbreviation i_if_icmplt := 161 (only parsing).
Abbreviation i_if_icmpge := 162 (only parsing).
Abbreviation i_if_icmpgt := 163 (only parsing).
Abbreviation i_if_icmple := 164 (only parsing).
Abbreviation i_goto := 167 (only parsing).
Abbreviation i_ireturn := 172 (only parsing).
Abbreviation i_areturn := 176 (only parsing).
Abbreviation i_return := 177 (only parsing).
Abbreviation i_getstatic := 178 (only parsing).
Abbreviation i_invokevirtual := 182 (only parsing).
Abbreviation i_invokestatic := 184 (only parsing).
Abbreviation i_newarray := 188 (only parsing).
Abbreviation i_arraylength := 190 (only parsing).

(** The case labels of the [switch] of [execute]. *)
Definition implemented : list Z :=
  [ i_bipush; i_iadd; i_return; i_getstatic; i_invokevirtual;
    i_iconst_m1; i_iconst_0; i_iconst_1; i_iconst_2; i_iconst_3;
    i_iconst_4; i_iconst_5; i_sipush; i_isub; i_imul; i_idiv; i_irem;
    i_ineg; i_ishl; i_ishr; i_iushr; i_iand; i_ior; i_ixor; i_iload;
    i_istore; i_iinc; i_iload_0; i_iload_1; i_iload_2; i_iload_3;
    i_istore_0; i_istore_1; i_istore_2; i_istore_3; i_ldc; i_ifeq; i_ifne;
    i_iflt; i_ifge; i_ifgt; i_ifle; i_if_icmpeq; i_if_icmpne; i_if_icmplt;
    i_if_icmpge; i_if_icmpgt; i_if_icmple; i_goto; i_ireturn;
    i_invokestatic; i_nop; i_dup; i_newarray; i_arraylength; i_areturn;
    i_iastore; i_iaload; i_aload; i_astore; i_aload_0; i_aload_1;
    i_aload_2; i_aload_3; i_astore_0; i_astore_1; i_astore_2; i_astore_3 ].

Definition is_implemented (instruction : Z) : bool :=
  existsb (Z.eqb instruction) implemented.

(** ** The state of one activation of [execute] *)

(** [optional_value_t]: [None] is [has_value = false]. *)
Definition optional_value_t : Type := option Z.

(** The variables of [execute] ([pc], [stack], [idx], the array [locals]
    points to), the heap, and the lines printed so far. *)
Record state : Type := {
  pc : Z;
  stack : list Z;
  idx : Z;
  locals : list Z;
  heap : heap_t;
  out : list Z
}.

Definition with_pc (p : Z) (s : state) : state :=
  {| pc := p; stack := stack s; idx := idx s; locals := locals s;
     heap := heap s; out := out s |}.
Definition with_stack (stk : list Z) (s : state) : state :=
  {| pc := pc s; stack := stk; idx := idx s; locals := locals s;
     heap := heap s; out := out s |}.
Definition with_idx (i : Z) (s : state) : state :=
  {| pc := pc s; stack := stack s; idx := i; locals := locals s;
     heap := heap s; out := out s |}.
Definition with_locals (l : list Z) (s : state) : state :=
  {| pc := pc s; stack := stack s; idx := idx s; locals := l;
     heap := heap s; out := out s |}.
Definition with_heap (h : heap_t) (s : state) : state :=
  {| pc := pc s; stack := stack s; idx := idx s; locals := locals s;
     heap := h; out := out s |}.
Definition with_out (o : list Z) (s : state) : state :=
  {| pc := pc s; stack := stack s; idx := idx s; locals := locals s;
     heap := heap s; out := o |}.

(** What one turn of the [switch] does: [break] with a new state, or
    [return] from [execute]. *)
Inductive step_result : Type :=
| Next (s : state)
| Return (r : optional_value_t) (s : state).

Definition next (s : state) : result step_result := Ok (Next s).

(** A recursive call [execute(method_call, local_queue, class, heap)]: from
    the callee, its locals, the heap and the output so far to the value
    returned, the heap and the output. *)
Definition callee : Type :=
  method_t -> list Z -> heap_t -> list Z ->
  result (optional_value_t * heap_t * list Z).

(** The cases that replace the two topmost slots by one:
    [stack[idx - 2] = f(stack[idx - 2], stack[idx - 1]); idx -= 1; pc += 1]. *)
Definition binop (f : Z -> Z -> Z) (s : state) : result step_result :=
  b <- load (stack s) (size_t (idx s - 1));;
  a <- load (stack s) (size_t (idx s - 2));;
  stk <- store (stack s) (size_t (idx s - 2)) (f a b);;
  next (with_pc (size_t (pc s + 1))
         (with_idx (size_t (idx s - 1)) (with_stack stk s))).

(** The cases [i_ifeq] to [i_ifle], which differ by the test on
    [stack[idx - 1]] only. *)
Definition if_cond (cond : Z -> bool) (bytecode : list Z) (s : state)
  : result step_result :=
  v <- load (stack s) (size_t (idx s - 1));;
  if cond v then
    b1 <- load bytecode (size_t (pc s + 1));;
    b2 <- load bytecode (size_t (pc s + 2));;
    next (with_idx (size_t (idx s - 1))
           (with_pc (size_t (pc s + imm16 b1 b2)) s))
  else
    next (with_idx (size_t (idx s - 1)) (with_pc (size_t (pc s + 3)) s)).

(** The cases [i_if_icmpeq] to [i_if_icmple], which differ by the test on
    [a = stack[idx - 2]] and [b = stack[idx - 1]] only. *)
Definition if_icmp (cond : Z -> Z -> bool) (bytecode : list Z) (s : state)
  : result step_result :=
  b <- load (stack s) (size_t (idx s - 1));;
  a <- load (stack s) (size_t (idx s - 2));;
  if cond a b then
    b1 <- load bytecode (size_t (pc s + 1));;
    b2 <- load bytecode (size_t (pc s + 2));;
    next (with_idx (size_t (idx s - 2))
           (with_pc (size_t (pc s + imm16 b1 b2)) s))
  else
    next (with_idx (size_t (idx s - 2)) (with_pc (size_t (pc s + 3)) s)).

(** The cases that push a local:
    [stack[idx] = locals[i]; pc += len; idx += 1]. *)
Definition load_local (i len : Z) (s : state) : result step_result :=
  v <- load (locals s) i;;
  stk <- store (stack s) (idx s) v;;
  next (with_idx (size_t (idx s + 1))
         (with_pc (size_t (pc s + len)) (with_stack stk s))).

(** The cases that pop into a local:
    [locals[i] = stack[idx - 1]; idx -= 1; pc += len]. *)
Definition store_local (i len : Z) (s : state) : result step_result :=
  v <- load (stack s) (size_t (idx s - 1));;
  l <- store (locals s) i v;;
  next (with_pc (size_t (pc s + len))
         (with_idx (size_t (idx s - 1)) (with_locals l s))).

(** The loop of [i_invokestatic], entered with [i = n - 1]:
    [for (; i > -1; i--) { local_queue[i] = stack[idx - 1]; idx -= 1; }] *)
Fixpoint pop_params (n : nat) (local_queue stk : list Z) (idx : Z)
  : result (list Z * Z) :=
  match n with
  | O => Ok (local_queue, idx)
  | S i =>
      v <- load stk (size_t (idx - 1));;
      local_queue <- store local_queue (Z.of_nat i) v;;
      pop_params i local_queue stk (size_t (idx - 1))
  end.

(** The loop of [i_newarray], with [n] turns left:
    [for (; i <= stack[idx - 1]; i++) new_arr[i] = 0;] *)
Fixpoint zero_fill (n : nat) (i : Z) (new_arr : list Z) : result (list Z) :=
  match n with
  | O => Ok new_arr
  | S n' =>
      new_arr <- store new_arr i 0;;
      zero_fill n' (int32 (i + 1)) new_arr
  end.

(** ** One turn of the [switch] *)

(** The body of [switch (instruction)] in the state [s], with [call] for
    the recursive call of [execute]. *)
Definition exec (call : callee) (class : class_file_t) (method : method_t)
    (instruction : Z) (s : state) : result step_result :=
  let bytecode := code (mcode method) in
  match instruction with
  | i_bipush =>
      b <- load bytecode (size_t (pc s + 1));;
      stk <- store (stack s) (idx s) (int32 (int8 b));;
      next (with_idx (size_t (idx s + 1))
             (with_pc (size_t (pc s + 2)) (with_stack stk s)))
  | i_iadd => binop (fun a b => int32 (b + a)) s
  | i_return => Ok (Return None s)
  | i_getstatic => next (with_pc (size_t (pc s + 3)) s)
  | i_invokevirtual =>
      let idx' := size_t (idx s - 1) in
      v <- load (stack s) idx';;
      next (with_pc (size_t (pc s + 3))
             (with_out (out s ++ [v]) (with_idx idx' s)))
  | i_iconst_m1 | i_iconst_0 | i_iconst_1 | i_iconst_2 | i_iconst_3
  | i_iconst_4 | i_iconst_5 =>
      stk <- store (stack s) (idx s) (int32 (int8 (instruction - i_iconst_0)));;
      next (with_pc (size_t (pc s + 1))
             (with_idx (size_t (idx s + 1)) (with_stack stk s)))
  | i_sipush =>
      b1 <- load bytecode (size_t (pc s + 1));;
      b2 <- load bytecode (size_t (pc s + 2));;
      stk <- store (stack s) (idx s) (int32 (imm16 b1 b2));;
      next (with_pc (size_t (pc s + 3))
             (with_idx (size_t (idx s + 1)) (with_stack stk s)))
  | i_isub => binop (fun a b => int32 (a - b)) s
  | i_imul => binop (fun a b => int32 (b * a)) s
  | i_idiv =>
      b <- load (stack s) (size_t (idx s - 1));;
      _ <- assert (negb (b =? 0));;
      a <- load (stack s) (size_t (idx s - 2));;
      _ <- defined (negb (division_overflows a b));;
      binop (fun a b => int32 (Z.quot a b)) s
  | i_irem =>
      b <- load (stack s) (size_t (idx s - 1));;
      _ <- assert (negb (b =? 0));;
      a <- load (stack s) (size_t (idx s - 2));;
      _ <- defined (negb (division_overflows a b));;
      binop (fun a b => int32 (Z.rem a b)) s
  | i_ineg =>
      v <- load (stack s) (size_t (idx s - 1));;
      stk <- store (stack s) (size_t (idx s - 1)) (int32 (-1 * v));;
      next (with_pc (size_t (pc s + 1)) (with_stack stk s))
  | i_ishl =>
      b <- load (stack s) (size_t (idx s - 1));;
      _ <- assert (b >=? 0);;
      _ <- defined (b <? 32);;
      binop (fun a b => int32 (Z.shiftl a b)) s
  | i_ishr =>
      b <- load (stack s) (size_t (idx s - 1));;
      _ <- assert (b >=? 0);;
      _ <- defined (b <? 32);;
      binop (fun a b => int32 (Z.shiftr a b)) s
  | i_iushr =>
      b <- load (stack s) (size_t (idx s - 1));;
      _ <- assert (b >=? 0);;
      _ <- defined (b <? 32);;
      binop (fun a b => int32 (Z.shiftr (u4 a) b)) s
  | i_iand => binop (fun a b => int32 (Z.land b a)) s
  | i_ior => binop (fun a b => int32 (Z.lor b a)) s
  | i_ixor => binop (fun a b => int32 (Z.lxor b a)) s
  | i_iload =>
      b <- load bytecode (size_t (pc s + 1));;
      load_local b 2 s
  | i_istore =>
      b <- load bytecode (size_t (pc s + 1));;
      store_local b 2 s
  | i_iinc =>
      b1 <- load bytecode (size_t (pc s + 1));;
      b2 <- load bytecode (size_t (pc s + 2));;
      v <- load (locals s) b1;;
      l <- store (locals s) b1 (int32 (v + int8 b2));;
      next (with_pc (size_t (pc s + 3)) (with_locals l s))
  | i_iload_0 | i_iload_1 | i_iload_2 | i_iload_3 =>
      load_local (instruction - i_iload_0) 1 s
  | i_istore_0 | i_istore_1 | i_istore_2 | i_istore_3 =>
      store_local (instruction - i_istore_0) 1 s
  | i_ldc =>
      b <- load bytecode (size_t (pc s + 1));;
      v <- constant_integer class (b - 1);;
      stk <- store (stack s) (idx s) v;;
      next (with_idx (size_t (idx s + 1))
             (with_pc (size_t (pc s + 2)) (with_stack stk s)))
  | i_ifeq => if_cond (fun v => v =? 0) bytecode s
  | i_ifne => if_cond (fun v => negb (v =? 0)) bytecode s
  | i_iflt => if_cond (fun v => v <? 0) bytecode s
  | i_ifge => if_cond (fun v => v >=? 0) bytecode s
  | i_ifgt => if_cond (fun v => v >? 0) bytecode s
  | i_ifle => if_cond (fun v => v <=? 0) bytecode s
  | i_if_icmpeq => if_icmp (fun a b => b =? a) bytecode s
  | i_if_icmpne => if_icmp (fun a b => negb (b =? a)) bytecode s
  | i_if_icmplt => if_icmp (fun a b => a <? b) bytecode s
  | i_if_icmpge => if_icmp (fun a b => a >=? b) bytecode s
  | i_if_icmpgt => if_icmp (fun a b => a >? b) bytecode s
  | i_if_icmple => if_icmp (fun a b => a <=? b) bytecode s
  | i_goto =>
      b1 <- load bytecode (size_t (pc s + 1));;
      b2 <- load bytecode (size_t (pc s + 2));;
      next (with_pc (size_t (pc s + imm16 b1 b2)) s)
  | i_ireturn =>
      v <- load (stack s) (size_t (idx s - 1));;
      Ok (Return (Some v) s)
  | i_invokestatic =>
      b1 <- load bytecode (size_t (pc s + 1));;
      b2 <- load bytecode (size_t (pc s + 2));;
      match find_method_from_index (imm16 b1 b2) class with
      | None => Undefined
      | Some method_call =>
          let local_queue := calloc (max_locals (mcode method_call)) 4 in
          popped <-
            pop_params (Z.to_nat (get_number_of_parameters method_call))
              local_queue (stack s) (idx s);;
          let '(local_queue, idx') := popped in
          answer <- call method_call local_queue (heap s) (out s);;
          let '(method_call_result, heap', out') := answer in
          let s' := with_out out' (with_heap heap' (with_idx idx' s)) in
          match method_call_result with
          | Some value =>
              stk <- store (stack s') (idx s') value;;
              next (with_pc (size_t (pc s' + 3))
                     (with_idx (size_t (idx s' + 1)) (with_stack stk s')))
          | None => next (with_pc (size_t (pc s' + 3)) s')
          end
      end
  | i_nop => next (with_pc (size_t (pc s + 1)) s)
  | i_dup =>
      v <- load (stack s) (size_t (idx s - 1));;
      stk <- store (stack s) (idx s) v;;
      next (with_pc (size_t (pc s + 1))
             (with_idx (size_t (idx s + 1)) (with_stack stk s)))
  | i_newarray =>
      n <- load (stack s) (size_t (idx s - 1));;
      _ <- assert (n >=? 0);;
      let new_arr := calloc (size_t (int32 (n + 1))) 4 in
      new_arr <- store new_arr 0 n;;
      new_arr <- zero_fill (Z.to_nat n) 1 new_arr;;
      let '(heap', reference) := heap_add (heap s) new_arr in
      stk <- store (stack s) (size_t (idx s - 1)) reference;;
      next (with_pc (size_t (pc s + 2)) (with_stack stk (with_heap heap' s)))
  | i_arraylength =>
      ref <- load (stack s) (size_t (idx s - 1));;
      arr <- heap_get (heap s) ref;;
      len <- load arr 0;;
      stk <- store (stack s) (size_t (idx s - 1)) len;;
      next (with_pc (size_t (pc s + 1)) (with_stack stk s))
  | i_areturn =>
      v <- load (stack s) (size_t (idx s - 1));;
      Ok (Return (Some v) s)
  | i_iastore =>
      ref <- load (stack s) (size_t (idx s - 3));;
      store_arr <- heap_get (heap s) ref;;
      i <- load (stack s) (size_t (idx s - 2));;
      v <- load (stack s) (size_t (idx s - 1));;
      store_arr <- store store_arr (int32 (i + 1)) v;;
      next (with_idx (size_t (idx s - 3))
             (with_pc (size_t (pc s + 1))
               (with_heap (heap_put (heap s) ref store_arr) s)))
  | i_iaload =>
      ref <- load (stack s) (size_t (idx s - 2));;
      arr <- heap_get (heap s) ref;;
      i <- load (stack s) (size_t (idx s - 1));;
      v <- load arr (int32 (i + 1));;
      stk <- store (stack s) (size_t (idx s - 2)) v;;
      next (with_pc (size_t (pc s + 1))
             (with_idx (size_t (idx s - 1)) (with_stack stk s)))
  | i_aload =>
      b <- load bytecode (size_t (pc s + 1));;
      load_local b 2 s
  | i_astore =>
      b <- load bytecode (size_t (pc s + 1));;
      store_local b 2 s
  | i_aload_0 | i_aload_1 | i_aload_2 | i_aload_3 =>
      load_local (instruction - i_aload_0) 1 s
  | i_astore_0 | i_astore_1 | i_astore_2 | i_astore_3 =>
      store_local (instruction - i_astore_0) 1 s
  | _ => next (with_pc (size_t (pc s + 1)) s)
  end.

(** ** [execute] *)

(** The locals of [s] when [execute] returns, the heap and the output. *)
Definition returned (r : optional_value_t) (s : state)
  : result (optional_value_t * state) := Ok (r, s).

(** The [while] loop of [execute] from the state [s]; a callee runs with
    the fuel that is left. *)
Fixpoint run (fuel : nat) (class : class_file_t) (method : method_t)
    (s : state) : result (optional_value_t * state) :=
  match fuel with
  | O => Timeout
  | S fuel' =>
      if pc s <? code_length (mcode method) then
        instruction <- load (code (mcode method)) (pc s);;
        r <- exec
               (fun method_call local_queue h o =>
                  r <- run fuel' class method_call
                         {| pc := 0;
                            stack := calloc (max_stack (mcode method_call)) 4;
                            idx := 0; locals := local_queue;
                            heap := h; out := o |};;
                  Ok (fst r, heap (snd r), out (snd r)))
               class method instruction s;;
        match r with
        | Next s' => run fuel' class method s'
        | Return v s' => returned v s'
        end
      else returned None s
  end.

(** The state [execute] starts in: [pc = 0], a zeroed stack of
    [max_stack] slots, [idx = 0]. *)
Definition entry (method : method_t) (l : list Z) (h : heap_t)
    (o : list Z) : state :=
  {| pc := 0; stack := calloc (max_stack (mcode method)) 4; idx := 0;
     locals := l; heap := h; out := o |}.

(** [execute(method, locals, class, heap)] with the output so far; the
    answer has the optional value returned and the final state, of which
    the caller sees [locals], [heap] and [out]. *)
Definition execute (fuel : nat) (method : method_t) (l : list Z)
    (class : class_file_t) (h : heap_t) (o : list Z)
  : result (optional_value_t * state) :=
  run fuel class method (entry method l h o).

(** The recursive call [execute] makes at [i_invokestatic]. *)
Definition call_execute (fuel : nat) (class : class_file_t) : callee :=
  fun method_call local_queue h o =>
    r <- execute fuel method_call local_queue class h o;;
    Ok (fst r, heap (snd r), out (snd r)).

(** ** Views of a state used in the statements *)

(** The loop of [execute] is about to run an instruction of [method] in
    [s]: [pc] passed the guard of the [while], [idx] is inside the stack,
    and the sizes are in the ranges of their class-file types
    ([code_length] is a [u4], [max_stack] a [u2]). *)
Definition running (method : method_t) (s : state) : Prop :=
  0 <= pc s < code_length (mcode method) /\
  code_length (mcode method) < 2 ^ 32 /\
  0 <= idx s <= Z.of_nat (length (stack s)) /\
  Z.of_nat (length (stack s)) < 2 ^ 16.

(** The slot [stack[idx - k]]: [slot 1 s] is the top of the stack. *)
Definition slot (k : Z) (s : state) : Z :=
  default 0 (stack s !! Z.to_nat (idx s - k)).

(** [s] after [v] was pushed. *)
Definition pushed (v : Z) (s : state) : state :=
  with_idx (idx s + 1) (with_stack (<[Z.to_nat (idx s) := v]> (stack s)) s).

(** [s] after its [k] topmost slots were popped. *)
Definition popped (k : Z) (s : state) : state := with_idx (idx s - k) s.

(** The byte [bytecode[pc + k]] of the instruction at [pc]. *)
Definition operand (method : method_t) (s : state) (k : Z) : option Z :=
  code (mcode method) !! Z.to_nat (pc s + k).

(** The test a branch instruction makes on [a = stack[idx - 2]] and
    [b = stack[idx - 1]]: the [if<cond>] forms compare [b] with 0, the
    [if_icmp<cond>] forms compare [a] with [b], [goto] always branches. *)
Definition branch_test (instruction a b : Z) : option bool :=
  match instruction with
  | i_ifeq => Some (b =? 0)
  | i_ifne => Some (negb (b =? 0))
  | i_iflt => Some (b <? 0)
  | i_ifge => Some (0 <=? b)
  | i_ifgt => Some (0 <? b)
  | i_ifle => Some (b <=? 0)
  | i_if_icmpeq => Some (a =? b)
  | i_if_icmpne => Some (negb (a =? b))
  | i_if_icmplt => Some (a <? b)
  | i_if_icmpge => Some (b <=? a)
  | i_if_icmpgt => Some (b <? a)
  | i_if_icmple => Some (a <=? b)
  | i_goto => Some true
  | _ => None
  end.

(** The number of operands a branch instruction pops. *)
Definition branch_pops (instruction : Z) : Z :=
  match instruction with
  | i_ifeq | i_ifne | i_iflt | i_ifge | i_ifgt | i_ifle => 1
  | i_if_icmpeq | i_if_icmpne | i_if_icmplt | i_if_icmpge | i_if_icmpgt
  | i_if_icmple => 2
  | _ => 0
  end.

(** The state after a branch instruction with immediate [b1 b2]. *)
Definition branched (instruction b1 b2 : Z) (taken : bool) (s : state)
  : state :=
  popped (branch_pops instruction)
    (with_pc (if taken then size_t (pc s + imm16 b1 b2) else pc s + 3) s).

(** The array [newarray] builds for the length [n]: [n] in cell 0, then
    [n] zeroes. *)
Definition new_array (n : Z) : list Z := n :: replicate (Z.to_nat n) 0.

(** The state [newarray] leaves: the length on top of the stack is
    replaced by the reference, which is the index of the new array in the
    heap. *)
Definition after_newarray (s : state) : state :=
  with_pc (pc s + 2)
    (pushed (Z.of_nat (length (heap s)))
       (popped 1 (with_heap (heap s ++ [new_array (slot 1 s)]) s))).

(** What holds of a frame of [method] between two instructions: the stack
    has [max_stack] slots and [idx] is one of [0 .. max_stack]. *)
Definition frame_inv (method : method_t) (s : state) : Prop :=
  Z.of_nat (length (stack s)) = max_stack (mcode method) /\
  0 <= idx s <= max_stack (mcode method).

(** The states a frame of [method] is in between two instructions: the
    state [execute] enters the frame in (the frame of [main], or the
    frame of a callee, for which [i_invokestatic] runs [execute] again),
    and the state a turn of the loop leaves when it ends in a [break],
    that is with no failed [assert] and no access outside an array. *)
Inductive boundary (class : class_file_t) (method : method_t)
  : state -> Prop :=
| boundary_entry (l : list Z) (h : heap_t) (o : list Z) :
    boundary class method (entry method l h o)
| boundary_next (fuel : nat) (s : state) (instruction : Z) (s' : state) :
    boundary class method s ->
    pc s < code_length (mcode method) ->
    load (code (mcode method)) (pc s) = Ok instruction ->
    exec (call_execute fuel class) class method instruction s
    = Ok (Next s') ->
    boundary class method s'.

(** [call'] answers as [call] wherever [call] has an answer. *)
Definition extends (call call' : callee) : Prop :=
  forall m l h o, call m l h o <> Timeout -> call' m l h o = call m l h o.

(** A method from its parameter count, [max_stack], [max_locals] and
    code. *)
Definition method_of (p ms ml : Z) (c : list Z) : method_t :=
  {| n_params := p;
     mcode := {| max_stack := ms; max_locals := ml; code := c |} |}.

(** What the caller of [execute] sees of an answer: the value, the
    locals, the heap and the printed lines. *)
Definition observe (r : result (optional_value_t * state))
  : result (optional_value_t * list Z * heap_t * list Z) :=
  r <- r;; Ok (fst r, locals (snd r), heap (snd r), out (snd r)).

(** ** [main] and the views used for the whole run *)

(** Modelled from the spec: [heap_init] of heap.h, the heap at startup,
    which holds no array. *)
Definition heap_init : heap_t := [].

(** [result.has_value] *)
Definition has_value (r : optional_value_t) : bool :=
  match r with
  | Some _ => true
  | None => false
  end.

(** [main(argc, argv)] (src/jvm.c, lines 401-435), with what the file
    system and the class reader give taken as inputs: [class_file] tells
    whether [fopen] returned a file, [closed] whether [fclose] returned 0,
    [class] is the answer of [get_class] and [main_method] that of
    [find_method(MAIN_METHOD, MAIN_DESCRIPTOR, class)], where [None] is
    [NULL].  The answer is the exit status with the lines printed. *)
Definition main (fuel : nat) (argc : Z) (class_file closed : bool)
    (class : class_file_t) (main_method : option method_t)
  : result (Z * list Z) :=
  if negb (argc =? 2) then Ok (1, [])
  else
    _ <- assert class_file;;
    _ <- assert closed;;
    match main_method with
    | None => Fault
    | Some main_method =>
        let l := replicate (Z.to_nat (max_locals (mcode main_method))) 0 in
        r <- execute fuel main_method l class heap_init [];;
        _ <- assert (negb (has_value (fst r)));;
        Ok (0, out (snd r))
    end.

(** The state a turn of the [switch] leaves, at a [break] or a [return]. *)
Definition landing (r : step_result) : state :=
  match r with
  | Next s => s
  | Return _ s => s
  end.

(** Every reference of [h] is a reference of [h'], to an array of as
    many cells. *)
Definition heap_grows (h h' : heap_t) : Prop :=
  forall (r : nat) (arr : list Z),
    h !! r = Some arr ->
    exists arr', h' !! r = Some arr' /\ length arr' = length arr.

(** A callee that leaves the heap grown. *)
Definition call_grows (call : callee) : Prop :=
  forall m l h o v h' o', call m l h o = Ok (v, h', o') -> heap_grows h h'.

(** The opcodes that can set [pc] backwards or run another method. *)
Definition jumps : list Z :=
  [ i_ifeq; i_ifne; i_iflt; i_ifge; i_ifgt; i_ifle; i_if_icmpeq;
    i_if_icmpne; i_if_icmplt; i_if_icmpge; i_if_icmpgt; i_if_icmple;
    i_goto; i_invokestatic ].

Definition is_jump (instruction : Z) : bool :=
  existsb (Z.eqb instruction) jumps.

(** No byte of the code of [method] is one of [jumps]. *)
Definition straight_line (method : method_t) : bool :=
  forallb (fun b => negb (is_jump b)) (code (mcode method)).

(** The local an instruction that pops into a local names, with the
    length of the instruction: [istore k] and [astore k] name their
    operand byte, [istore_n] and [astore_n] name [n]. *)
Definition store_form (method : method_t) (s : state) (instruction : Z)
  : option (Z * Z) :=
  match instruction with
  | i_istore | i_astore =>
      match operand method s 1 with
      | Some k => Some (k, 2)
      | None => None
      end
  | i_istore_0 | i_astore_0 => Some (0, 1)
  | i_istore_1 | i_astore_1 => Some (1, 1)
  | i_istore_2 | i_astore_2 => Some (2, 1)
  | i_istore_3 | i_astore_3 => Some (3, 1)
  | _ => None
  end.

(** The same for the instructions that push a local. *)
Definition load_form (method : method_t) (s : state) (instruction : Z)
  : option (Z * Z) :=
  match instruction with
  | i_iload | i_aload =>
      match operand method s 1 with
      | Some k => Some (k, 2)
      | None => None
      end
  | i_iload_0 | i_aload_0 => Some (0, 1)
  | i_iload_1 | i_aload_1 => Some (1, 1)
  | i_iload_2 | i_aload_2 => Some (2, 1)
  | i_iload_3 | i_aload_3 => Some (3, 1)
  | _ => None
  end.

(** The opcodes that read the slot below [idx] before anything else of
    the stack. *)
Definition pops : list Z :=
  [ i_iadd; i_isub; i_imul; i_idiv; i_irem; i_ineg; i_ishl; i_ishr;
    i_iushr; i_iand; i_ior; i_ixor; i_istore; i_astore; i_istore_0;
    i_istore_1; i_istore_2; i_istore_3; i_astore_0; i_astore_1;
    i_astore_2; i_astore_3; i_ifeq; i_ifne; i_iflt; i_ifge; i_ifgt;
    i_ifle; i_if_icmpeq; i_if_icmpne; i_if_icmplt; i_if_icmpge;
    i_if_icmpgt; i_if_icmple; i_ireturn; i_areturn; i_dup; i_newarray;
    i_arraylength; i_iastore; i_iaload; i_invokevirtual ].

(** The opcodes that write the slot at [idx]. *)
Definition pushes : list Z :=
  [ i_iconst_m1; i_iconst_0; i_iconst_1; i_iconst_2; i_iconst_3;
    i_iconst_4; i_iconst_5; i_bipush; i_sipush; i_ldc; i_iload; i_aload;
    i_iload_0; i_iload_1; i_iload_2; i_iload_3; i_aload_0; i_aload_1;
    i_aload_2; i_aload_3; i_dup ].

(** The number of bytes of an instruction: the opcode and its operand
    bytes. *)
Definition instruction_length (instruction : Z) : Z :=
  match instruction with
  | i_bipush | i_ldc | i_iload | i_istore | i_aload | i_astore
  | i_newarray => 2
  | i_sipush | i_iinc | i_getstatic | i_invokevirtual | i_invokestatic
  | i_ifeq | i_ifne | i_iflt | i_ifge | i_ifgt | i_ifle | i_if_icmpeq
  | i_if_icmpne | i_if_icmplt | i_if_icmpge | i_if_icmpgt | i_if_icmple
  | i_goto => 3
  | _ => 1
  end.

(** The opcodes by what they can write besides the stack and [pc]. *)
Definition writes_locals (instruction : Z) : bool :=
  existsb (Z.eqb instruction)
    [ i_istore; i_astore; i_istore_0; i_istore_1; i_istore_2; i_istore_3;
      i_astore_0; i_astore_1; i_astore_2; i_astore_3; i_iinc ].

Definition writes_heap (instruction : Z) : bool :=
  existsb (Z.eqb instruction) [ i_newarray; i_iastore; i_invokestatic ].

Definition writes_out (instruction : Z) : bool :=
  existsb (Z.eqb instruction) [ i_invokevirtual; i_invokestatic ].

(** ** Integers and arrays: basic facts *)

Lemma size_t_id (x : Z) : 0 <= x < 2 ^ 64 -> size_t x = x.
Proof. intros H. unfold size_t. now apply Z.mod_small. Qed.

Lemma wrap_id (w x : Z) :
  0 < w -> - 2 ^ (w - 1) <= x < 2 ^ (w - 1) -> wrap w x = x.
Proof.
  intros Hw Hx. unfold wrap.
  replace (2 ^ w) with (2 * 2 ^ (w - 1)).
  - rewrite Z.mod_small; lia.
  - rewrite <- Z.pow_succ_r by lia. f_equal. lia.
Qed.

Lemma wrap_range (w x : Z) :
  0 < w -> - 2 ^ (w - 1) <= wrap w x < 2 ^ (w - 1).
Proof.
  intros Hw. unfold wrap.
  assert (E : 2 ^ w = 2 * 2 ^ (w - 1)).
  { rewrite <- Z.pow_succ_r by lia. f_equal. lia. }
  assert (0 < 2 ^ (w - 1)) by (apply Z.pow_pos_nonneg; lia).
  pose proof (Z.mod_pos_bound (x + 2 ^ (w - 1)) (2 ^ w)). lia.
Qed.

Lemma int32_id (x : Z) : - 2 ^ 31 <= x < 2 ^ 31 -> int32 x = x.
Proof. intros H. apply wrap_id; simpl; lia. Qed.

Lemma int8_range (x : Z) : -128 <= int8 x < 128.
Proof. apply (wrap_range 8 x). lia. Qed.

Lemma int16_range (x : Z) : -32768 <= int16 x < 32768.
Proof. apply (wrap_range 16 x). lia. Qed.

Lemma int32_range (x : Z) : - 2 ^ 31 <= int32 x < 2 ^ 31.
Proof. apply (wrap_range 32 x). lia. Qed.

Lemma int32_congruent (x : Z) : int32 x mod 2 ^ 32 = x mod 2 ^ 32.
Proof.
  unfold int32, wrap. change (2 ^ (32 - 1)) with 2147483648.
  change (2 ^ 32) with 4294967296.
  Z.to_euclidean_division_equations. lia.
Qed.

Lemma int32_int8 (x : Z) : int32 (int8 x) = int8 x.
Proof. apply int32_id. pose proof (int8_range x). lia. Qed.

Lemma int32_int16 (x : Z) : int32 (int16 x) = int16 x.
Proof. apply int32_id. pose proof (int16_range x). lia. Qed.

(** The big-endian pair [b1], [b2] as a 16-bit number. *)
Lemma be16_disjoint (b1 b2 : Z) :
  0 <= b2 < 256 -> Z.land (Z.shiftl b1 8) b2 = 0.
Proof.
  intros H2. apply Z.bits_inj'. intros n Hn.
  rewrite Z.land_spec, Z.bits_0.
  destruct (Z.lt_ge_cases n 8) as [Hlt|Hge].
  - rewrite Z.shiftl_spec_low by assumption. reflexivity.
  - replace (Z.testbit b2 n) with false; [apply andb_false_r|].
    symmetry. destruct (Z.eq_dec b2 0) as [->|Hb]; [apply Z.bits_0|].
    apply Z.bits_above_log2; [lia|].
    assert (Z.log2 b2 < 8); [|lia].
    apply Z.log2_lt_pow2; lia.
Qed.

Lemma be16 (b1 b2 : Z) :
  0 <= b2 < 256 -> Z.lor (Z.shiftl b1 8) b2 = 256 * b1 + b2.
Proof.
  intros H2. pose proof (be16_disjoint b1 b2 H2) as D.
  rewrite <- Z.lxor_lor by exact D.
  rewrite <- Z.add_nocarry_lxor by exact D.
  rewrite Z.shiftl_mul_pow2 by lia. change (2 ^ 8) with 256. lia.
Qed.

(** The immediate of a 3-byte instruction is the signed 16-bit number with
    high byte [b1] and low byte [b2]. *)
Lemma imm16_spec (b1 b2 : Z) :
  0 <= b1 < 256 -> 0 <= b2 < 256 ->
  imm16 b1 b2 =
    if b1 <? 128 then 256 * b1 + b2 else 256 * b1 + b2 - 65536.
Proof.
  intros H1 H2. unfold imm16. rewrite be16 by assumption.
  unfold int16, wrap. change (2 ^ (16 - 1)) with 32768.
  change (2 ^ 16) with 65536.
  destruct (Z.ltb_spec b1 128).
  - rewrite Z.mod_small; lia.
  - replace (256 * b1 + b2 + 32768)
      with ((256 * b1 + b2 - 32768) + 1 * 65536) by lia.
    rewrite Z.mod_add by lia. rewrite Z.mod_small; lia.
Qed.

Lemma load_lookup (a : list Z) (i v : Z) :
  0 <= i -> a !! Z.to_nat i = Some v -> load a i = Ok v.
Proof.
  intros Hi Hv. unfold load. rewrite Hv.
  destruct (Z.leb_spec 0 i); [reflexivity|lia].
Qed.

Lemma load_inv (a : list Z) (i v : Z) :
  load a i = Ok v ->
  0 <= i < Z.of_nat (length a) /\ a !! Z.to_nat i = Some v.
Proof.
  unfold load. destruct (Z.leb_spec 0 i); [|discriminate].
  destruct (a !! Z.to_nat i) as [x|] eqn:E; [|discriminate].
  intros [= <-]. apply lookup_lt_Some in E. split; [lia|reflexivity].
Qed.

Lemma store_in (a : list Z) (i v : Z) :
  0 <= i < Z.of_nat (length a) -> store a i v = Ok (<[Z.to_nat i := v]> a).
Proof.
  intros Hi. unfold store.
  destruct (Z.leb_spec 0 i); [|lia].
  destruct (Z.ltb_spec i (Z.of_nat (length a))); [reflexivity|lia].
Qed.

Lemma store_inv (a : list Z) (i v : Z) (a' : list Z) :
  store a i v = Ok a' ->
  0 <= i < Z.of_nat (length a) /\ a' = <[Z.to_nat i := v]> a.
Proof.
  unfold store. destruct (Z.leb_spec 0 i); [|discriminate].
  destruct (Z.ltb_spec i (Z.of_nat (length a))); [|discriminate].
  intros [= <-]. split; [lia|reflexivity].
Qed.

Lemma store_length (a : list Z) (i v : Z) (a' : list Z) :
  store a i v = Ok a' -> length a' = length a.
Proof.
  intros H. apply store_inv in H as [_ ->]. apply length_insert.
Qed.

(** The slot [k] below the top holds [slot k s] when the stack has [k]
    values. *)
Lemma load_slot (s : state) (k : Z) :
  0 < k <= idx s -> idx s <= Z.of_nat (length (stack s)) ->
  Z.of_nat (length (stack s)) < 2 ^ 16 ->
  load (stack s) (size_t (idx s - k)) = Ok (slot k s).
Proof.
  intros Hk Hi Hlen. rewrite size_t_id by lia. unfold slot.
  destruct (lookup_lt_is_Some_2 (stack s) (Z.to_nat (idx s - k))) as [v Hv];
    [lia|].
  rewrite Hv. simpl. apply load_lookup; [lia|assumption].
Qed.

(** ** Constants: [bipush] and [sipush] *)

Lemma int8_spec (b : Z) :
  0 <= b < 256 -> int8 b = if b <? 128 then b else b - 256.
Proof.
  intros H. unfold int8, wrap. change (2 ^ (8 - 1)) with 128.
  change (2 ^ 8) with 256.
  destruct (Z.ltb_spec b 128).
  - rewrite Z.mod_small; lia.
  - replace (b + 128) with ((b - 128) + 1 * 256) by lia.
    rewrite Z.mod_add by lia. rewrite Z.mod_small; lia.
Qed.

Lemma int8_roundtrip (v : Z) : -128 <= v <= 127 -> int8 (v mod 256) = v.
Proof.
  intros H. pose proof (Z.mod_pos_bound v 256 ltac:(lia)) as B.
  rewrite int8_spec by lia.
  destruct (Z.ltb_spec (v mod 256) 128) as [L|L].
  - destruct (Z.le_gt_cases 0 v); [rewrite Z.mod_small; lia|].
    replace v with ((v + 256) + (-1) * 256) in L by lia.
    rewrite Z.mod_add in L by lia. rewrite Z.mod_small in L; lia.
  - destruct (Z.le_gt_cases 0 v).
    + rewrite Z.mod_small in L; lia.
    + replace v with ((v + 256) + (-1) * 256) at 1 by lia.
      rewrite Z.mod_add by lia. rewrite Z.mod_small; lia.
Qed.

Lemma imm16_roundtrip (v : Z) :
  -32768 <= v <= 32767 -> imm16 (v mod 65536 / 256) (v mod 256) = v.
Proof.
  intros H. pose proof (Z.mod_pos_bound v 65536 ltac:(lia)) as B.
  pose proof (Z.mod_pos_bound v 256 ltac:(lia)) as B'.
  unfold imm16. rewrite be16 by lia.
  assert (E : 256 * (v mod 65536 / 256) + v mod 256 = v mod 65536).
  { Z.to_euclidean_division_equations; lia. }
  rewrite E. unfold int16, wrap. change (2 ^ (16 - 1)) with 32768.
  change (2 ^ 16) with 65536.
  rewrite Z.add_mod_idemp_l by lia.
  rewrite Z.mod_small; lia.
Qed.

(** C8. [bipush b] pushes the byte [b] sign-extended from 8 bits and
    advances [pc] by 2; [sipush b1 b2] pushes the big-endian 16-bit number
    [b1 b2] sign-extended and advances [pc] by 3.  The sign extensions
    are the two's-complement ones, so every value of -128..127 and of
    -32768..32767 is pushed exactly from its encoding. *)
Theorem bipush_sipush_push_sign_extended
    (call : callee) (class : class_file_t) (method : method_t) (s : state) :
  running method s ->
  idx s < Z.of_nat (length (stack s)) ->
  (forall b, operand method s 1 = Some b ->
     exec call class method i_bipush s
     = Ok (Next (with_pc (pc s + 2) (pushed (int8 b) s)))) /\
  (forall b1 b2,
     operand method s 1 = Some b1 -> operand method s 2 = Some b2 ->
     exec call class method i_sipush s
     = Ok (Next (with_pc (pc s + 3) (pushed (imm16 b1 b2) s)))) /\
  (forall b, 0 <= b < 256 ->
     int8 b = if b <? 128 then b else b - 256) /\
  (forall b1 b2, 0 <= b1 < 256 -> 0 <= b2 < 256 ->
     imm16 b1 b2
     = if b1 <? 128 then 256 * b1 + b2 else 256 * b1 + b2 - 65536) /\
  (forall v, -128 <= v <= 127 -> int8 (v mod 256) = v) /\
  (forall v, -32768 <= v <= 32767 ->
     imm16 (v mod 65536 / 256) (v mod 256) = v).
Proof.
  intros (Hpc & Hlen & Hidx & Hstk) Hroom.
  repeat split.
  - intros b Hb. unfold exec, operand in *.
    rewrite !size_t_id by lia.
    rewrite (load_lookup _ _ b) by (lia || assumption). cbn [bind].
    rewrite int32_int8, store_in by lia. reflexivity.
  - intros b1 b2 Hb1 Hb2. unfold exec, operand in *.
    rewrite !size_t_id by lia.
    rewrite (load_lookup _ _ b1) by (lia || assumption). cbn [bind].
    rewrite (load_lookup _ _ b2) by (lia || assumption). cbn [bind].
    unfold imm16 at 1. rewrite int32_int16, store_in by lia. reflexivity.
  - apply int8_spec.
  - apply imm16_spec.
  - apply int8_roundtrip.
  - apply imm16_roundtrip.
Qed.

Lemma bipush_sipush_push_sign_extended_witness :
  let m := {| n_params := 0;
              mcode := {| max_stack := 1; max_locals := 0;
                          code := [i_bipush; 128] |} |} in
  let s := {| pc := 0; stack := [0]; idx := 0; locals := [];
              heap := []; out := [] |} in
  exec (fun _ _ _ _ => Timeout) {| constant_pool := []; methods := [] |}
    m i_bipush s
  = Ok (Next {| pc := 2; stack := [-128]; idx := 1; locals := [];
                heap := []; out := [] |}).
Proof.
  intros m s.
  assert (R : running m s)
    by (subst m s; unfold running, code_length; simpl; lia).
  assert (I : idx s < Z.of_nat (length (stack s))) by (subst s; simpl; lia).
  exact (proj1
    (bipush_sipush_push_sign_extended (fun _ _ _ _ => Timeout)
       {| constant_pool := []; methods := [] |} m s R I) 128 eq_refl).
Defined.

(** ** Arithmetic on the two topmost slots *)

(** Two states are equal when their six variables are. *)
Lemma state_eq (s t : state) :
  pc s = pc t -> stack s = stack t -> idx s = idx t ->
  locals s = locals t -> heap s = heap t -> out s = out t -> s = t.
Proof. destruct s, t; simpl; intros; subst; reflexivity. Qed.

Lemma binop_pops_two_pushes_one (f : Z -> Z -> Z) (method : method_t)
    (s : state) :
  running method s -> 2 <= idx s ->
  binop f s
  = Ok (Next (with_pc (pc s + 1)
               (pushed (f (slot 2 s) (slot 1 s)) (popped 2 s)))).
Proof.
  intros (Hpc & Hlen & Hidx & Hstk) H2. unfold binop.
  rewrite (load_slot s 1), (load_slot s 2) by lia. cbn [bind].
  rewrite !size_t_id by lia. rewrite store_in by lia. cbn [bind]. unfold next.
  do 2 f_equal. apply state_eq; simpl; try reflexivity; lia.
Qed.

Lemma quot_abs_le (x y q : Z) :
  y <> 0 -> Z.abs x <= Z.abs y * q -> Z.abs (Z.quot x y) <= q.
Proof.
  intros Hy H. rewrite <- Z.quot_abs by assumption.
  apply Z.quot_le_upper_bound; lia.
Qed.

Lemma quot_fits (a b : Z) :
  - 2 ^ 31 <= a < 2 ^ 31 -> b <> 0 -> ~ (a = - 2 ^ 31 /\ b = -1) ->
  int32 (Z.quot a b) = Z.quot a b.
Proof.
  intros Ha Hb Hm. apply int32_id.
  change (2 ^ 31) with 2147483648 in *.
  destruct (Z.eq_dec b 1) as [->|H1]; [rewrite Z.quot_1_r; lia|].
  destruct (Z.eq_dec b (-1)) as [->|H2].
  - change (-1) with (- (1)). rewrite Z.quot_opp_r, Z.quot_1_r by lia. lia.
  - pose proof (quot_abs_le a b 1073741824 Hb ltac:(lia)). lia.
Qed.

Lemma rem_fits (a b : Z) :
  - 2 ^ 31 <= a < 2 ^ 31 -> b <> 0 -> int32 (Z.rem a b) = Z.rem a b.
Proof.
  intros Ha Hb. apply int32_id.
  change (2 ^ 31) with 2147483648 in *.
  pose proof (Z.rem_abs a b Hb) as E.
  pose proof (Z.rem_le (Z.abs a) (Z.abs b) ltac:(lia) ltac:(lia)) as L.
  pose proof (Z.rem_sign_mul a b Hb) as S.
  rewrite E in L. nia.
Qed.

(** C4. [idiv] and [irem] on a stack ..., a, b.  When [b = 0] the
    [assert] fails and nothing is produced.  When [b <> 0], both operands
    are popped and the quotient truncated towards zero (the remainder
    with the sign of [a]) is pushed, which is in the [int32_t] range;
    but not for [a = INT_MIN] and [b = -1], which pass the [assert]: there
    the code evaluates [INT_MIN / -1] (and [INT_MIN % -1]), which C leaves
    undefined, where the two's-complement quotient is [INT_MIN] and the
    remainder 0. *)
Theorem idiv_irem_zero_faults_else_quotient
    (call : callee) (class : class_file_t) (method : method_t) (s : state) :
  running method s -> 2 <= idx s ->
  (slot 1 s = 0 ->
     exec call class method i_idiv s = Fault /\
     exec call class method i_irem s = Fault) /\
  (slot 2 s = - 2 ^ 31 -> slot 1 s = -1 ->
     exec call class method i_idiv s = Undefined /\
     exec call class method i_irem s = Undefined) /\
  (slot 1 s <> 0 -> ~ (slot 2 s = - 2 ^ 31 /\ slot 1 s = -1) ->
   - 2 ^ 31 <= slot 2 s < 2 ^ 31 ->
     exec call class method i_idiv s
     = Ok (Next (with_pc (pc s + 1)
                  (pushed (Z.quot (slot 2 s) (slot 1 s)) (popped 2 s)))) /\
     exec call class method i_irem s
     = Ok (Next (with_pc (pc s + 1)
                  (pushed (Z.rem (slot 2 s) (slot 1 s)) (popped 2 s)))) /\
     - 2 ^ 31 <= Z.quot (slot 2 s) (slot 1 s) < 2 ^ 31 /\
     - 2 ^ 31 <= Z.rem (slot 2 s) (slot 1 s) < 2 ^ 31).
Proof.
  intros Hrun H2. pose proof Hrun as (Hpc & Hlen & Hidx & Hstk).
  split; [|split].
  - intros Hz. unfold exec.
    rewrite (load_slot s 1) by lia. cbn [bind]. rewrite Hz. split; reflexivity.
  - intros Ha Hb. unfold exec.
    rewrite (load_slot s 1), (load_slot s 2) by lia. cbn [bind].
    rewrite Ha, Hb. split; reflexivity.
  - intros Hnz Hm Ha. unfold exec.
    rewrite (load_slot s 1), (load_slot s 2) by lia. cbn [bind].
    destruct (Z.eqb_spec (slot 1 s) 0) as [E|_]; [contradiction|].
    cbn [negb assert bind].
    assert (D : division_overflows (slot 2 s) (slot 1 s) = false).
    { unfold division_overflows.
      destruct (Z.eqb_spec (slot 2 s) (- 2 ^ 31)) as [E1|E1];
        [|reflexivity].
      destruct (Z.eqb_spec (slot 1 s) (-1)) as [E2|E2]; [|reflexivity].
      exfalso. apply Hm. split; assumption. }
    rewrite D. cbn [negb defined bind].
    rewrite !(binop_pops_two_pushes_one _ method) by assumption.
    rewrite quot_fits, rem_fits by assumption.
    split; [reflexivity|]. split; [reflexivity|].
    rewrite <- (quot_fits (slot 2 s) (slot 1 s)) by assumption.
    rewrite <- (rem_fits (slot 2 s) (slot 1 s)) by assumption.
    split; apply int32_range.
Qed.

Lemma idiv_irem_zero_faults_else_quotient_witness :
  let m := {| n_params := 0;
              mcode := {| max_stack := 2; max_locals := 0;
                          code := [i_idiv] |} |} in
  let s := {| pc := 0; stack := [-2147483648; -1]; idx := 2; locals := [];
              heap := []; out := [] |} in
  slot 1 s <> 0 /\
  exec (fun _ _ _ _ => Timeout) {| constant_pool := []; methods := [] |}
    m i_idiv s
  = Undefined.
Proof.
  intros m s.
  assert (R : running m s)
    by (subst m s; unfold running, code_length; simpl; lia).
  assert (I : 2 <= idx s) by (subst s; simpl; lia).
  split; [vm_compute; discriminate|].
  exact (proj1 (proj1 (proj2
    (idiv_irem_zero_faults_else_quotient (fun _ _ _ _ => Timeout)
       {| constant_pool := []; methods := [] |} m s R I)) eq_refl eq_refl)).
Defined.

(** ** Shifts *)





(** ** Opcodes outside the instruction set *)

Lemma exec_default (call : callee) (class : class_file_t)
    (method : method_t) (instruction : Z) (s : state) :
  is_implemented instruction = false ->
  exec call class method instruction s
  = next (with_pc (size_t (pc s + 1)) s).
Proof.
  intros H. unfold exec.
  destruct instruction as [|p|p]; [discriminate H| |reflexivity].
  do 8 (try destruct p as [p|p|]); try reflexivity;
    vm_compute in H; discriminate H.
Qed.

(** C9. An opcode that is no case label of the [switch] advances [pc] by
    1 and changes nothing else: stack, [idx], locals, heap and output are
    those of before, and there is no fault. *)
Theorem unknown_opcode_is_one_byte_nop
    (call : callee) (class : class_file_t) (method : method_t)
    (instruction : Z) (s : state) :
  is_implemented instruction = false ->
  running method s ->
  exec call class method instruction s
  = Ok (Next {| pc := pc s + 1; stack := stack s; idx := idx s;
                locals := locals s; heap := heap s; out := out s |}).
Proof.
  intros H (Hpc & Hlen & Hidx & Hstk).
  rewrite exec_default by assumption.
  rewrite size_t_id by lia. reflexivity.
Qed.

Lemma unknown_opcode_is_one_byte_nop_witness :
  let m := {| n_params := 0;
              mcode := {| max_stack := 1; max_locals := 1;
                          code := [255; i_return] |} |} in
  let s := {| pc := 0; stack := [5]; idx := 1; locals := [9];
              heap := [[1; 4]]; out := [3] |} in
  exec (fun _ _ _ _ => Timeout) {| constant_pool := []; methods := [] |}
    m 255 s
  = Ok (Next {| pc := 1; stack := [5]; idx := 1; locals := [9];
                heap := [[1; 4]]; out := [3] |}).
Proof.
  intros m s.
  assert (R : running m s)
    by (subst m s; unfold running, code_length; simpl; lia).
  exact (unknown_opcode_is_one_byte_nop (fun _ _ _ _ => Timeout)
           {| constant_pool := []; methods := [] |} m 255 s eq_refl R).
Defined.

(** ** Branches *)

Lemma if_cond_spec (cond : Z -> bool) (method : method_t) (s : state)
    (b1 b2 : Z) :
  running method s -> 1 <= idx s ->
  operand method s 1 = Some b1 -> operand method s 2 = Some b2 ->
  if_cond cond (code (mcode method)) s
  = Ok (Next (popped 1
               (with_pc (if cond (slot 1 s)
                         then size_t (pc s + imm16 b1 b2) else pc s + 3) s))).
Proof.
  intros (Hpc & Hlen & Hidx & Hstk) H1 Hb1 Hb2. unfold if_cond, operand in *.
  rewrite (load_slot s 1) by lia. cbn [bind].
  rewrite (size_t_id (idx s - 1)), (size_t_id (pc s + 1)),
    (size_t_id (pc s + 2)), (size_t_id (pc s + 3)) by lia.
  destruct (cond (slot 1 s)).
  - rewrite (load_lookup _ _ b1) by (lia || assumption). cbn [bind].
    rewrite (load_lookup _ _ b2) by (lia || assumption). reflexivity.
  - reflexivity.
Qed.

Lemma if_icmp_spec (cond : Z -> Z -> bool) (method : method_t) (s : state)
    (b1 b2 : Z) :
  running method s -> 2 <= idx s ->
  operand method s 1 = Some b1 -> operand method s 2 = Some b2 ->
  if_icmp cond (code (mcode method)) s
  = Ok (Next (popped 2
               (with_pc (if cond (slot 2 s) (slot 1 s)
                         then size_t (pc s + imm16 b1 b2) else pc s + 3) s))).
Proof.
  intros (Hpc & Hlen & Hidx & Hstk) H1 Hb1 Hb2. unfold if_icmp, operand in *.
  rewrite (load_slot s 1), (load_slot s 2) by lia. cbn [bind].
  rewrite (size_t_id (idx s - 2)), (size_t_id (pc s + 1)),
    (size_t_id (pc s + 2)), (size_t_id (pc s + 3)) by lia.
  destruct (cond (slot 2 s) (slot 1 s)).
  - rewrite (load_lookup _ _ b1) by (lia || assumption). cbn [bind].
    rewrite (load_lookup _ _ b2) by (lia || assumption). reflexivity.
  - reflexivity.
Qed.

Lemma goto_spec (call : callee) (class : class_file_t) (method : method_t)
    (s : state) (b1 b2 : Z) :
  running method s ->
  operand method s 1 = Some b1 -> operand method s 2 = Some b2 ->
  exec call class method i_goto s
  = Ok (Next (popped 0 (with_pc (size_t (pc s + imm16 b1 b2)) s))).
Proof.
  intros (Hpc & Hlen & Hidx & Hstk) Hb1 Hb2. unfold exec, operand in *.
  rewrite (size_t_id (pc s + 1)), (size_t_id (pc s + 2)) by lia.
  rewrite (load_lookup _ _ b1) by (lia || assumption). cbn [bind].
  rewrite (load_lookup _ _ b2) by (lia || assumption). cbn [bind].
  unfold next. do 2 f_equal. apply state_eq; simpl; try reflexivity; lia.
Qed.

(** What [exec] does at a branch instruction. *)
Lemma exec_branch (call : callee) (class : class_file_t) (method : method_t)
    (s : state) (instruction b1 b2 : Z) (taken : bool) :
  running method s ->
  operand method s 1 = Some b1 -> operand method s 2 = Some b2 ->
  branch_pops instruction <= idx s ->
  branch_test instruction (slot 2 s) (slot 1 s) = Some taken ->
  exec call class method instruction s
  = Ok (Next (branched instruction b1 b2 taken s)).
Proof.
  intros Hrun Hb1 Hb2 Hpops Htest. unfold branched.
  destruct instruction as [|p|p]; [discriminate Htest| |discriminate Htest].
  do 8 (try destruct p as [p|p|]); try discriminate Htest;
    cbn in Htest; injection Htest as <-; cbn [branch_pops] in *;
    try (unfold exec;
         first [ rewrite (if_cond_spec _ method s b1 b2) by assumption
               | rewrite (if_icmp_spec _ method s b1 b2) by assumption ];
         rewrite ?Z.geb_leb, ?Z.gtb_ltb, ?(Z.eqb_sym (slot 1 s) (slot 2 s));
         reflexivity).
  apply goto_spec; assumption.
Qed.

(** C3. For [ifeq] ... [ifle], [if_icmpeq] ... [if_icmple] and [goto], with
    the immediate bytes [b1 b2]: on a taken branch the new [pc] is the
    address of the opcode plus the sign-extended big-endian 16-bit number
    [b1 b2] (in [size_t] arithmetic, so exactly that sum when it is not
    negative); otherwise [pc] advances by 3; the conditional forms pop
    their one or two operands on both paths. *)
Theorem branch_offset_is_from_opcode_address
    (call : callee) (class : class_file_t) (method : method_t) (s : state)
    (instruction b1 b2 : Z) (taken : bool) :
  running method s ->
  operand method s 1 = Some b1 -> operand method s 2 = Some b2 ->
  branch_pops instruction <= idx s ->
  branch_test instruction (slot 2 s) (slot 1 s) = Some taken ->
  exec call class method instruction s
  = Ok (Next {| pc := if taken then size_t (pc s + imm16 b1 b2)
                      else pc s + 3;
                stack := stack s;
                idx := idx s - branch_pops instruction;
                locals := locals s; heap := heap s; out := out s |}) /\
  (0 <= pc s + imm16 b1 b2 ->
     size_t (pc s + imm16 b1 b2) = pc s + imm16 b1 b2) /\
  (0 <= b1 < 256 -> 0 <= b2 < 256 ->
     imm16 b1 b2
     = if b1 <? 128 then 256 * b1 + b2 else 256 * b1 + b2 - 65536).
Proof.
  intros Hrun Hb1 Hb2 Hpops Htest. split; [|split].
  - rewrite (exec_branch call class method s instruction b1 b2 taken)
      by assumption.
    reflexivity.
  - intros Hpos. destruct Hrun as (Hpc & Hlen & _).
    pose proof (int16_range (Z.lor (Z.shiftl b1 8) b2)).
    apply size_t_id. unfold imm16 in *. lia.
  - apply imm16_spec.
Qed.

Lemma branch_offset_is_from_opcode_address_witness :
  let m := {| n_params := 0;
              mcode := {| max_stack := 1; max_locals := 0;
                          code := [i_nop; i_iconst_0; i_ifeq; 255; 254] |} |} in
  let s := {| pc := 2; stack := [0]; idx := 1; locals := [];
              heap := []; out := [] |} in
  exec (fun _ _ _ _ => Timeout) {| constant_pool := []; methods := [] |}
    m i_ifeq s
  = Ok (Next {| pc := 0; stack := [0]; idx := 0; locals := [];
                heap := []; out := [] |}).
Proof.
  intros m s.
  assert (R : running m s)
    by (subst m s; unfold running, code_length; simpl; lia).
  assert (I : branch_pops i_ifeq <= idx s) by (subst s; simpl; lia).
  exact (proj1
    (branch_offset_is_from_opcode_address (fun _ _ _ _ => Timeout)
       {| constant_pool := []; methods := [] |} m s i_ifeq 255 254 true
       R eq_refl eq_refl I eq_refl)).
Defined.

(** ** A branch that leaves the code *)

(** One turn of the [while] loop of [execute]. *)
Lemma run_S (fuel : nat) (class : class_file_t) (method : method_t)
    (s : state) :
  run (S fuel) class method s
  = if pc s <? code_length (mcode method) then
      instruction <- load (code (mcode method)) (pc s);;
      r <- exec (call_execute fuel class) class method instruction s;;
      match r with
      | Next s' => run fuel class method s'
      | Return v s' => returned v s'
      end
    else returned None s.
Proof. reflexivity. Qed.

(** The loop is over when [pc] is not below [code_length]. *)
Lemma run_past_end (fuel : nat) (class : class_file_t) (method : method_t)
    (s : state) :
  code_length (mcode method) <= pc s ->
  run (S fuel) class method s = Ok (None, s).
Proof.
  intros H. rewrite run_S.
  destruct (Z.ltb_spec (pc s) (code_length (mcode method))); [lia|reflexivity].
Qed.

(** A target outside the code array, as a [size_t], is not below
    [code_length]. *)
Lemma target_outside (method : method_t) (p b1 b2 : Z) :
  0 <= p < code_length (mcode method) ->
  code_length (mcode method) < 2 ^ 32 ->
  ~ (0 <= p + imm16 b1 b2 < code_length (mcode method)) ->
  code_length (mcode method) <= size_t (p + imm16 b1 b2).
Proof.
  intros Hp Hlen Hout.
  pose proof (int16_range (Z.lor (Z.shiftl b1 8) b2)) as R.
  fold (imm16 b1 b2) in R.
  destruct (Z.lt_ge_cases (p + imm16 b1 b2) 0) as [Hneg|Hpos].
  - unfold size_t.
    replace (p + imm16 b1 b2)
      with ((p + imm16 b1 b2 + 2 ^ 64) + (-1) * 2 ^ 64) by lia.
    rewrite Z.mod_add by lia. rewrite Z.mod_small; lia.
  - rewrite size_t_id; lia.
Qed.

(** C2, as the code has it.  When a [goto] or a taken conditional branch
    computes a target outside [0, code_length), the guard of the [while]
    loop fails at the next turn and [execute] returns void
    ([has_value = false]), as it does when execution runs past the last
    instruction; the frame does not fault. *)
Theorem branch_out_of_code_returns_void
    (fuel : nat) (class : class_file_t) (method : method_t) (s : state)
    (instruction b1 b2 : Z) :
  running method s ->
  code (mcode method) !! Z.to_nat (pc s) = Some instruction ->
  operand method s 1 = Some b1 -> operand method s 2 = Some b2 ->
  branch_pops instruction <= idx s ->
  branch_test instruction (slot 2 s) (slot 1 s) = Some true ->
  ~ (0 <= pc s + imm16 b1 b2 < code_length (mcode method)) ->
  run (S (S fuel)) class method s
  = Ok (None, {| pc := size_t (pc s + imm16 b1 b2); stack := stack s;
                 idx := idx s - branch_pops instruction;
                 locals := locals s; heap := heap s; out := out s |}).
Proof.
  intros Hrun Hop Hb1 Hb2 Hpops Htest Hout.
  pose proof Hrun as (Hpc & Hlen & Hidx & Hstk).
  rewrite run_S.
  destruct (Z.ltb_spec (pc s) (code_length (mcode method))); [|lia].
  rewrite (load_lookup _ _ instruction) by (lia || assumption). cbn [bind].
  rewrite (exec_branch _ class method s instruction b1 b2 true)
    by assumption.
  cbn [bind]. apply run_past_end. simpl.
  apply target_outside; assumption.
Qed.

Lemma branch_out_of_code_returns_void_witness :
  let m := {| n_params := 0;
              mcode := {| max_stack := 1; max_locals := 0;
                          code := [i_iconst_0; i_ifeq; 255; 0] |} |} in
  let s := {| pc := 1; stack := [0]; idx := 1; locals := [];
              heap := []; out := [] |} in
  ~ (0 <= pc s + imm16 255 0 < code_length (mcode m)) /\
  run 2 {| constant_pool := []; methods := [] |} m s
  = Ok (None, {| pc := 2 ^ 64 - 255; stack := [0]; idx := 0; locals := [];
                 heap := []; out := [] |}).
Proof.
  intros m s.
  assert (R : running m s)
    by (subst m s; unfold running, code_length; simpl; lia).
  assert (I : branch_pops i_ifeq <= idx s) by (subst s; simpl; lia).
  assert (O : ~ (0 <= pc s + imm16 255 0 < code_length (mcode m)))
    by (subst m s; vm_compute; intros [H _]; apply H; reflexivity).
  split; [exact O|].
  exact (branch_out_of_code_returns_void 0 {| constant_pool := []; methods := [] |}
           m s i_ifeq 255 0 R eq_refl eq_refl eq_refl I eq_refl O).
Defined.

(** C2 as stated fails: the method whose code is [goto +5], three bytes
    long, branches to 5, outside its code, and [execute] returns void;
    no amount of fuel makes the run a fault. *)
Lemma branch_out_of_code_is_no_fault :
  let m := {| n_params := 0;
              mcode := {| max_stack := 0; max_locals := 0;
                          code := [i_goto; 0; 5] |} |} in
  let class := {| constant_pool := []; methods := [m] |} in
  branch_test i_goto 0 0 = Some true /\
  ~ (0 <= 0 + imm16 0 5 < code_length (mcode m)) /\
  execute 2 m [] class [] []
  = Ok (None, {| pc := 5; stack := []; idx := 0; locals := [];
                 heap := []; out := [] |}) /\
  (forall fuel, execute fuel m [] class [] [] <> Fault).
Proof.
  intros m class. split; [reflexivity|]. split; [|split].
  - vm_compute. intros [_ H]. discriminate H.
  - reflexivity.
  - intros [|[|fuel]]; discriminate.
Qed.

(** ** Method invocation *)

Lemma calloc_small (n : Z) :
  0 <= n < 2 ^ 62 -> calloc n 4 = replicate (Z.to_nat n) 0.
Proof.
  intros H. unfold calloc.
  destruct (Z.ltb_spec (n * 4) (2 ^ 64)); [reflexivity|lia].
Qed.

(** The loop that moves the arguments: [n] slots are popped, the topmost
    goes to [local_queue[n - 1]], the deepest to [local_queue[0]], and the
    cells from [n] on are left as they were. *)
Lemma pop_params_spec (n : nat) (stk : list Z) :
  Z.of_nat (length stk) < 2 ^ 16 ->
  forall (local_queue : list Z) (i0 : Z),
  Z.of_nat n <= i0 <= Z.of_nat (length stk) ->
  (n <= length local_queue)%nat ->
  exists local_queue',
    pop_params n local_queue stk i0 = Ok (local_queue', i0 - Z.of_nat n) /\
    length local_queue' = length local_queue /\
    (forall i : nat, (i < n)%nat ->
       local_queue' !! i = stk !! Z.to_nat (i0 - Z.of_nat n + Z.of_nat i)) /\
    (forall i : nat, (n <= i)%nat -> local_queue' !! i = local_queue !! i).
Proof.
  intros Hstk. induction n as [|n IH]; intros local_queue i0 Hi Hlq.
  - exists local_queue. simpl. rewrite Z.sub_0_r.
    split; [reflexivity|]. split; [reflexivity|].
    split; [intros i Hlt; lia|reflexivity].
  - cbn [pop_params].
    destruct (lookup_lt_is_Some_2 stk (Z.to_nat (i0 - 1))) as [v Hv]; [lia|].
    rewrite size_t_id by lia.
    rewrite (load_lookup _ _ v) by (lia || assumption). cbn [bind].
    rewrite store_in by lia. cbn [bind]. rewrite Nat2Z.id.
    destruct (IH (<[n := v]> local_queue) (i0 - 1)) as (lq & E & L & A & B).
    { lia. }
    { rewrite length_insert. lia. }
    exists lq. rewrite E. rewrite length_insert in L.
    split; [f_equal; f_equal; lia|]. split; [exact L|]. split.
    + intros i Hlt. destruct (decide (i = n)) as [->|Hne].
      * rewrite B by lia. rewrite list_lookup_insert_eq by lia.
        rewrite <- Hv. f_equal. lia.
      * rewrite A by lia. f_equal. lia.
    + intros i Hge. rewrite B by lia.
      apply list_lookup_insert_ne. lia.
Qed.

(** C1. [invokestatic] of a method [m] with [p] parameters, on a caller
    stack that holds at least [p] values: the callee runs with locals of
    [max_locals] cells in which cell [i < p] is the caller slot
    [stack[idx - p + i]] (the top of the stack is cell [p - 1], the
    deepest of the [p] is cell 0) and every further cell is 0; the [p]
    values are popped, the value the callee returns, if any, is pushed,
    and [pc] advances by 3. *)
Theorem invokestatic_marshals_arguments
    (call : callee) (class : class_file_t) (method : method_t) (s : state)
    (b1 b2 : Z) (m : method_t) :
  running method s ->
  operand method s 1 = Some b1 -> operand method s 2 = Some b2 ->
  find_method_from_index (imm16 b1 b2) class = Some m ->
  0 <= get_number_of_parameters m <= max_locals (mcode m) ->
  max_locals (mcode m) < 2 ^ 16 ->
  get_number_of_parameters m <= idx s ->
  exists local_queue : list Z,
    Z.of_nat (length local_queue) = max_locals (mcode m) /\
    (forall i, 0 <= i < get_number_of_parameters m ->
       local_queue !! Z.to_nat i
       = stack s !! Z.to_nat (idx s - get_number_of_parameters m + i)) /\
    (forall i, get_number_of_parameters m <= i < max_locals (mcode m) ->
       local_queue !! Z.to_nat i = Some 0) /\
    exec call class method i_invokestatic s
    = (answer <- call m local_queue (heap s) (out s);;
       let '(r, h, o) := answer in
       let s' :=
         with_pc (pc s + 3)
           (with_out o
              (with_heap h (popped (get_number_of_parameters m) s))) in
       match r with
       | Some value =>
           if idx s' <? Z.of_nat (length (stack s'))
           then Ok (Next (pushed value s'))
           else Undefined
       | None => Ok (Next s')
       end).
Proof.
  intros (Hpc & Hlen & Hidx & Hstk) Hb1 Hb2 Hm Hp Hml Hi.
  set (p := get_number_of_parameters m) in *.
  destruct (pop_params_spec (Z.to_nat p) (stack s) Hstk
              (calloc (max_locals (mcode m)) 4) (idx s)) as (lq & E & L & A & B).
  { lia. }
  { rewrite calloc_small by lia. rewrite length_replicate. lia. }
  rewrite calloc_small in L, B by lia. rewrite length_replicate in L.
  exists lq. split; [lia|]. split; [|split].
  - intros i Hlt. rewrite A by lia. f_equal. lia.
  - intros i Hlt. rewrite B by lia.
    apply lookup_replicate_2. lia.
  - unfold exec, operand in *.
    rewrite (size_t_id (pc s + 1)), (size_t_id (pc s + 2)) by lia.
    rewrite (load_lookup _ _ b1) by (lia || assumption). cbn [bind].
    rewrite (load_lookup _ _ b2) by (lia || assumption). cbn [bind].
    rewrite Hm. fold p. rewrite E. cbn [bind].
    destruct (call m lq (heap s) (out s)) as [[[r h] o]| | |];
      cbn [bind]; try reflexivity.
    rewrite Z2Nat.id by lia. destruct r as [value|].
    + cbn [idx stack pc with_out with_heap with_idx with_pc popped].
      destruct (Z.ltb_spec (idx s - p) (Z.of_nat (length (stack s))))
        as [Hroom|Hfull].
      * rewrite store_in by lia. cbn [bind]. unfold next.
        do 2 f_equal. rewrite !size_t_id by lia.
        apply state_eq; reflexivity.
      * unfold store.
        destruct (Z.ltb_spec (idx s - p) (Z.of_nat (length (stack s))));
          [lia|]. rewrite andb_false_r. reflexivity.
    + unfold next. do 2 f_equal.
      cbn [idx stack pc with_out with_heap with_idx with_pc popped].
      rewrite !size_t_id by lia. apply state_eq; reflexivity.
Qed.

Lemma invokestatic_marshals_arguments_witness :
  let mul := {| n_params := 2;
                mcode := {| max_stack := 2; max_locals := 3;
                            code := [i_iload_0; i_iload_1; i_imul;
                                     i_ireturn] |} |} in
  let main := {| n_params := 1;
                 mcode := {| max_stack := 3; max_locals := 1;
                             code := [i_getstatic; 0; 0; i_bipush; 6;
                                      i_bipush; 7; i_invokestatic; 0; 1;
                                      i_invokevirtual; 0; 0; i_return] |} |} in
  let class := {| constant_pool := [CONSTANT_Methodref_info 1%nat];
                  methods := [main; mul] |} in
  let s := {| pc := 7; stack := [6; 7; 0]; idx := 2; locals := [0];
              heap := []; out := [] |} in
  exec (call_execute 5 class) class main i_invokestatic s
  = Ok (Next {| pc := 10; stack := [42; 7; 0]; idx := 1; locals := [0];
                heap := []; out := [] |}).
Proof.
  intros mul main class s.
  assert (R : running main s)
    by (subst main s; unfold running, code_length; simpl; lia).
  assert (P : 0 <= get_number_of_parameters mul <= max_locals (mcode mul))
    by (subst mul; simpl; lia).
  assert (L : max_locals (mcode mul) < 2 ^ 16) by (subst mul; simpl; lia).
  assert (I : get_number_of_parameters mul <= idx s)
    by (subst mul s; simpl; lia).
  destruct (invokestatic_marshals_arguments (call_execute 5 class) class
              main s 0 1 mul R eq_refl eq_refl eq_refl P L I)
    as (lq & Hlen & Hargs & Hzero & Hexec).
  rewrite Hexec.
  pose proof (Hargs 0 ltac:(subst mul; simpl; lia)) as A0.
  pose proof (Hargs 1 ltac:(subst mul; simpl; lia)) as A1.
  pose proof (Hzero 2 ltac:(subst mul; simpl; lia)) as A2.
  destruct lq as [|x0 [|x1 [|x2 [|x3 lq]]]];
    try discriminate A0; try discriminate A1; try discriminate A2;
    [|exfalso; subst mul; simpl in Hlen; lia].
  injection A0 as ->. injection A1 as ->. injection A2 as ->.
  reflexivity.
Defined.

(** ** Arrays *)

Lemma zero_fill_zeros (n : nat) :
  forall (i : Z) (new_arr : list Z),
  0 <= i -> i + Z.of_nat n < 2 ^ 31 ->
  (forall j, i <= j < i + Z.of_nat n -> new_arr !! Z.to_nat j = Some 0) ->
  zero_fill n i new_arr = Ok new_arr.
Proof.
  induction n as [|n IH]; intros i new_arr Hi Hn Hz; [reflexivity|].
  cbn [zero_fill].
  assert (Hc : new_arr !! Z.to_nat i = Some 0) by (apply Hz; lia).
  pose proof (lookup_lt_Some _ _ _ Hc) as Hlt.
  rewrite store_in by lia. cbn [bind].
  rewrite list_insert_id by exact Hc.
  rewrite int32_id by lia. apply IH; [lia|lia|].
  intros j Hj. apply Hz. lia.
Qed.

Lemma exec_newarray (call : callee) (class : class_file_t)
    (method : method_t) (s : state) :
  running method s -> 1 <= idx s -> 0 <= slot 1 s < 2 ^ 31 - 1 ->
  exec call class method i_newarray s
  = Ok (Next (with_pc (pc s + 2)
               (pushed (Z.of_nat (length (heap s)))
                  (popped 1
                     (with_heap (heap s ++ [new_array (slot 1 s)]) s))))).
Proof.
  intros (Hpc & Hlen & Hidx & Hstk) H1 Hn. unfold exec.
  rewrite (load_slot s 1) by lia. cbn [bind].
  destruct (Z.geb_spec (slot 1 s) 0) as [_|G]; [|lia]. cbn [assert bind].
  rewrite int32_id by lia. rewrite (size_t_id (slot 1 s + 1)) by lia.
  rewrite calloc_small by lia.
  replace (Z.to_nat (slot 1 s + 1)) with (S (Z.to_nat (slot 1 s))) by lia.
  cbn [replicate]. rewrite store_in by (cbn [length]; lia). cbn [bind].
  change (<[Z.to_nat 0 := slot 1 s]> (0 :: replicate (Z.to_nat (slot 1 s)) 0))
    with (new_array (slot 1 s)).
  rewrite zero_fill_zeros.
  - cbn [bind heap_add]. rewrite !size_t_id by lia.
    rewrite store_in by lia. cbn [bind]. unfold next.
    do 2 f_equal. apply state_eq; simpl; try reflexivity; try lia.
  - lia.
  - lia.
  - intros j Hj. unfold new_array.
    replace (Z.to_nat j) with (S (Z.to_nat (j - 1))) by lia.
    cbn [lookup list_lookup]. apply lookup_replicate_2. lia.
Qed.

(** The [assert] of [newarray] lets [n = 2^31 - 1] through.  There
    [stack[idx - 1] + 1] is [-2^31] as an [int32_t], the size asked of
    [calloc] does not fit [size_t], [calloc] returns [NULL] and
    [new_arr[0] = n] is a store through it. *)
Lemma exec_newarray_int_max (call : callee) (class : class_file_t)
    (method : method_t) (s : state) :
  running method s -> 1 <= idx s -> slot 1 s = 2 ^ 31 - 1 ->
  exec call class method i_newarray s = Undefined.
Proof.
  intros (Hpc & Hlen & Hidx & Hstk) H1 Hn. unfold exec.
  rewrite (load_slot s 1) by lia. cbn [bind]. rewrite Hn. reflexivity.
Qed.

Lemma exec_arraylength (call : callee) (class : class_file_t)
    (method : method_t) (t : state) (arr : list Z) (len : Z) :
  running method t -> 1 <= idx t -> 0 <= slot 1 t ->
  heap t !! Z.to_nat (slot 1 t) = Some arr -> arr !! 0%nat = Some len ->
  exec call class method i_arraylength t
  = Ok (Next (with_pc (pc t + 1) (pushed len (popped 1 t)))).
Proof.
  intros (Hpc & Hlen & Hidx & Hstk) H1 Hr Harr Hcell. unfold exec.
  rewrite (load_slot t 1) by lia. cbn [bind]. unfold heap_get.
  destruct (Z.leb_spec 0 (slot 1 t)); [|lia]. rewrite Harr. cbn [bind].
  rewrite (load_lookup _ _ len) by (lia || assumption). cbn [bind].
  rewrite !size_t_id by lia. rewrite store_in by lia. cbn [bind].
  unfold next. do 2 f_equal.
  apply state_eq; simpl; try reflexivity; lia.
Qed.

Lemma exec_iaload (call : callee) (class : class_file_t)
    (method : method_t) (t : state) (arr : list Z) (v : Z) :
  running method t -> 2 <= idx t -> 0 <= slot 2 t ->
  heap t !! Z.to_nat (slot 2 t) = Some arr ->
  0 <= slot 1 t < 2 ^ 31 - 1 ->
  arr !! Z.to_nat (slot 1 t + 1) = Some v ->
  exec call class method i_iaload t
  = Ok (Next (with_pc (pc t + 1) (pushed v (popped 2 t)))).
Proof.
  intros (Hpc & Hlen & Hidx & Hstk) H2 Hr Harr Hi Hcell. unfold exec.
  rewrite (load_slot t 2) by lia. cbn [bind]. unfold heap_get.
  destruct (Z.leb_spec 0 (slot 2 t)); [|lia]. rewrite Harr. cbn [bind].
  rewrite (load_slot t 1) by lia. cbn [bind].
  rewrite int32_id by lia.
  rewrite (load_lookup _ _ v) by (lia || assumption). cbn [bind].
  rewrite !size_t_id by lia. rewrite store_in by lia. cbn [bind].
  unfold next. do 2 f_equal.
  apply state_eq; simpl; try reflexivity; lia.
Qed.

Lemma exec_iastore (call : callee) (class : class_file_t)
    (method : method_t) (t : state) (arr : list Z) :
  running method t -> 3 <= idx t -> 0 <= slot 3 t ->
  heap t !! Z.to_nat (slot 3 t) = Some arr ->
  0 <= slot 2 t -> slot 2 t + 1 < Z.of_nat (length arr) ->
  slot 2 t < 2 ^ 31 - 1 ->
  exec call class method i_iastore t
  = Ok (Next (with_pc (pc t + 1)
               (popped 3
                  (with_heap
                     (<[Z.to_nat (slot 3 t) :=
                          <[Z.to_nat (slot 2 t + 1) := slot 1 t]> arr]>
                        (heap t)) t)))).
Proof.
  intros (Hpc & Hlen & Hidx & Hstk) H3 Hr Harr Hi Hin Hi'. unfold exec.
  rewrite (load_slot t 3) by lia. cbn [bind]. unfold heap_get.
  destruct (Z.leb_spec 0 (slot 3 t)); [|lia]. rewrite Harr. cbn [bind].
  rewrite (load_slot t 2), (load_slot t 1) by lia. cbn [bind].
  rewrite int32_id by lia. rewrite store_in by lia. cbn [bind].
  rewrite !size_t_id by lia. reflexivity.
Qed.

Lemma new_array_cell (n i : Z) :
  0 <= i < n -> new_array n !! Z.to_nat (i + 1) = Some 0.
Proof.
  intros Hi. unfold new_array.
  replace (Z.to_nat (i + 1)) with (S (Z.to_nat i)) by lia.
  cbn [lookup list_lookup]. apply lookup_replicate_2. lia.
Qed.

Lemma new_array_length (n : Z) :
  0 <= n -> Z.of_nat (length (new_array n)) = n + 1.
Proof.
  intros Hn. unfold new_array. cbn [length]. rewrite length_replicate. lia.
Qed.

(** C6. [newarray] pops [n], and its [assert] lets every [n >= 0]
    through.  For [0 <= n < 2^31 - 1] the reference [r] it pushes is such
    that [arraylength] on [r] yields [n]; [iaload] of [(r, i)] for [i] in
    [0, n) yields 0 as long as nothing was stored; and after [iastore] of
    [(r, i, v)], [iaload] of [(r, i)] yields [v] while the other cells
    still read 0.  For [n = 2^31 - 1] the sum [n + 1] of the [calloc]
    overflows, no array is allocated and the length is stored through
    [NULL]. *)
Theorem newarray_length_and_cells
    (call : callee) (class : class_file_t) (method : method_t) (s : state) :
  running method s -> 1 <= idx s ->
  let n := slot 1 s in
  let r := Z.of_nat (length (heap s)) in
  (n = 2 ^ 31 - 1 -> exec call class method i_newarray s = Undefined) /\
  (0 <= n < 2 ^ 31 - 1 ->
   exec call class method i_newarray s = Ok (Next (after_newarray s)) /\
   slot 1 (after_newarray s) = r /\
   (forall t, running method t -> heap t = heap (after_newarray s) ->
      1 <= idx t -> slot 1 t = r ->
      exec call class method i_arraylength t
      = Ok (Next (with_pc (pc t + 1) (pushed n (popped 1 t))))) /\
   (forall t i, running method t -> heap t = heap (after_newarray s) ->
      2 <= idx t -> slot 2 t = r -> slot 1 t = i -> 0 <= i < n ->
      exec call class method i_iaload t
      = Ok (Next (with_pc (pc t + 1) (pushed 0 (popped 2 t))))) /\
   (forall t i v, running method t -> heap t = heap (after_newarray s) ->
      3 <= idx t -> slot 3 t = r -> slot 2 t = i -> slot 1 t = v ->
      0 <= i < n ->
      exists t1,
        exec call class method i_iastore t = Ok (Next t1) /\
        pc t1 = pc t + 1 /\ idx t1 = idx t - 3 /\ stack t1 = stack t /\
        forall u j, running method u -> heap u = heap t1 ->
          2 <= idx u -> slot 2 u = r -> slot 1 u = j -> 0 <= j < n ->
          exec call class method i_iaload u
          = Ok (Next (with_pc (pc u + 1)
                       (pushed (if j =? i then v else 0) (popped 2 u)))))).
Proof.
  intros Hrun H1 n r. split.
  { intros Hmax. apply exec_newarray_int_max; assumption. }
  intros Hn. pose proof Hrun as (Hpc & Hlen & Hidx & Hstk).
  assert (Hheap : heap (after_newarray s) !! Z.to_nat r = Some (new_array n)).
  { subst r. rewrite Nat2Z.id. simpl. apply list_lookup_middle. reflexivity. }
  split; [|split; [|split; [|split]]].
  - apply exec_newarray; assumption.
  - unfold slot, after_newarray. simpl.
    replace (Z.to_nat (idx s - 1 + 1 - 1)) with (Z.to_nat (idx s - 1)) by lia.
    rewrite list_lookup_insert_eq by lia. reflexivity.
  - intros t Ht Hh Hi Hr.
    apply (exec_arraylength call class method t (new_array n) n);
      try assumption.
    + rewrite Hr. subst r. lia.
    + rewrite Hh, Hr. exact Hheap.
    + reflexivity.
  - intros t i Ht Hh Hi Hr Hsi Hin.
    apply (exec_iaload call class method t (new_array n) 0); try assumption.
    + rewrite Hr. subst r. lia.
    + rewrite Hh, Hr. exact Hheap.
    + lia.
    + rewrite Hsi. apply new_array_cell. assumption.
  - intros t i v Ht Hh Hi Hr Hsi Hsv Hin.
    eexists. split.
    + apply (exec_iastore call class method t (new_array n));
        try assumption.
      * rewrite Hr. subst r. lia.
      * rewrite Hh, Hr. exact Hheap.
      * lia.
      * rewrite new_array_length by lia. lia.
      * lia.
    + split; [reflexivity|]. split; [reflexivity|]. split; [reflexivity|].
      intros u j Hu Hhu Hiu Hru Hsj Hjn.
      apply (exec_iaload call class method u
               (<[Z.to_nat (i + 1) := v]> (new_array n))); try assumption.
      * rewrite Hru. subst r. lia.
      * rewrite Hhu, Hru. simpl. rewrite Hr, Hsi, Hsv, Hh.
        apply list_lookup_insert_eq.
        apply lookup_lt_Some in Hheap. exact Hheap.
      * lia.
      * rewrite Hsj. destruct (Z.eqb_spec j i) as [->|Hne].
        -- apply list_lookup_insert_eq.
           pose proof (new_array_length n ltac:(lia)). lia.
        -- rewrite list_lookup_insert_ne by lia.
           apply new_array_cell. assumption.
Qed.

Lemma newarray_length_and_cells_witness :
  let m := {| n_params := 0;
              mcode := {| max_stack := 1; max_locals := 0;
                          code := [i_ldc; 1; i_newarray; 10;
                                   i_arraylength; i_return] |} |} in
  let class := {| constant_pool := [CONSTANT_Integer_info 2147483647];
                  methods := [m] |} in
  let s := {| pc := 2; stack := [2147483647]; idx := 1; locals := [];
              heap := []; out := [] |} in
  let s3 := {| pc := 2; stack := [3]; idx := 1; locals := [];
               heap := []; out := [] |} in
  0 <= slot 1 s /\
  exec (fun _ _ _ _ => Timeout) class m i_newarray s = Undefined /\
  exec (fun _ _ _ _ => Timeout) class m i_newarray s3
  = Ok (Next {| pc := 4; stack := [0]; idx := 1; locals := [];
                heap := [[3; 0; 0; 0]]; out := [] |}) /\
  exec (fun _ _ _ _ => Timeout) class m i_arraylength
    {| pc := 4; stack := [0]; idx := 1; locals := [];
       heap := [[3; 0; 0; 0]]; out := [] |}
  = Ok (Next {| pc := 5; stack := [3]; idx := 1; locals := [];
                heap := [[3; 0; 0; 0]]; out := [] |}).
Proof.
  intros m class s s3.
  assert (R : running m s)
    by (subst m s; unfold running, code_length; simpl; lia).
  assert (I : 1 <= idx s) by (subst s; simpl; lia).
  assert (R3 : running m s3)
    by (subst m s3; unfold running, code_length; simpl; lia).
  assert (I3 : 1 <= idx s3) by (subst s3; simpl; lia).
  assert (N3 : 0 <= slot 1 s3 < 2 ^ 31 - 1)
    by (subst s3; unfold slot; simpl; lia).
  split; [subst s; unfold slot; simpl; lia|].
  split.
  - exact (proj1 (newarray_length_and_cells (fun _ _ _ _ => Timeout) class m s
                    R I) eq_refl).
  - pose proof (proj2 (newarray_length_and_cells (fun _ _ _ _ => Timeout)
                         class m s3 R3 I3) N3) as (E & _ & L & _).
    split; [exact E|].
    apply (L {| pc := 4; stack := [0]; idx := 1; locals := [];
                heap := [[3; 0; 0; 0]]; out := [] |}).
    + subst m. unfold running, code_length. simpl. lia.
    + reflexivity.
    + simpl. lia.
    + reflexivity.
Defined.

(** A whole run that comes to [newarray] with [2^31 - 1] on the stack:
    the [assert] passes, and the run ends at the store through [NULL]. *)
Lemma newarray_int_max_is_undefined :
  let m := {| n_params := 0;
              mcode := {| max_stack := 1; max_locals := 0;
                          code := [i_ldc; 1; i_newarray; 10;
                                   i_arraylength; i_return] |} |} in
  let class := {| constant_pool := [CONSTANT_Integer_info 2147483647];
                  methods := [m] |} in
  forall fuel, (2 <= fuel)%nat -> execute fuel m [] class [] [] = Undefined.
Proof.
  intros m class [|[|fuel]] H; [lia|lia|]. vm_compute. reflexivity.
Qed.

(** ** The depth of the operand stack *)

(** Case analysis on the opcode: one case for each label of the [switch]
    and one for the [default]. *)
Lemma opcode_cases (P : Z -> Prop) (instruction : Z) :
  Forall P implemented ->
  (is_implemented instruction = false -> P instruction) ->
  P instruction.
Proof.
  intros Himp Hdef. destruct (is_implemented instruction) eqn:E.
  - unfold is_implemented in E. apply existsb_exists in E as (x & Hin & Heq).
    apply Z.eqb_eq in Heq. subst x.
    rewrite Forall_forall in Himp. apply Himp.
    apply list_elem_of_In. exact Hin.
  - apply Hdef. reflexivity.
Qed.

(** Inversion of a chain of array accesses that succeeded. *)
Ltac inv_bind H :=
  repeat match type of H with
  | bind ?e _ = Ok _ =>
      let E := fresh "E" in
      destruct e eqn:E; cbn [bind] in H; [|discriminate H ..]
  | (let '(_, _) := ?p in _) = Ok _ => destruct p
  | (if ?c then _ else _) = Ok _ =>
      let E := fresh "E" in destruct c eqn:E
  | match ?x with Some _ => _ | None => _ end = Ok _ =>
      let E := fresh "E" in destruct x eqn:E; [|try discriminate H]
  | Undefined = Ok _ => discriminate H
  | Fault = Ok _ => discriminate H
  end.

(** The bounds an access that succeeded was made within. *)
Ltac bounds :=
  repeat match goal with
  | E : load _ _ = Ok _ |- _ => apply load_inv in E as [? _]
  | E : store _ _ _ = Ok _ |- _ => apply store_inv in E as [? ->]
  end.

Lemma pop_params_inv (n : nat) (stk : list Z) :
  Z.of_nat (length stk) < 2 ^ 16 ->
  forall (local_queue : list Z) (i : Z) (local_queue' : list Z) (i' : Z),
  pop_params n local_queue stk i = Ok (local_queue', i') ->
  0 <= i <= Z.of_nat (length stk) ->
  i' = i - Z.of_nat n /\ Z.of_nat n <= i.
Proof.
  intros Hstk. induction n as [|n IH]; intros lq i lq' i' H Hi.
  - injection H as _ <-. lia.
  - cbn [pop_params] in H. inv_bind H.
    apply load_inv in E as [Hb _].
    assert (1 <= i /\ size_t (i - 1) = i - 1) as [H1 Es].
    { unfold size_t in *. Z.to_euclidean_division_equations. lia. }
    rewrite Es in H. apply IH in H; lia.
Qed.

Ltac frame_step H :=
  unfold exec, binop, if_cond, if_icmp, load_local, store_local, next in H;
  inv_bind H; injection H as <-; bounds;
  unfold frame_inv; cbn [stack idx with_pc with_stack with_idx with_locals
                         with_heap with_out];
  rewrite ?length_insert;
  (split; [assumption|]);
  unfold size_t in *; Z.to_euclidean_division_equations; lia.

(** A turn of the [switch] that ends in a [break] keeps the depth of the
    stack within [0 .. max_stack], whatever the opcode. *)
Lemma exec_keeps_frame_inv (call : callee) (class : class_file_t)
    (method : method_t) (instruction : Z) (s s' : state) :
  max_stack (mcode method) < 2 ^ 16 ->
  frame_inv method s ->
  exec call class method instruction s = Ok (Next s') ->
  frame_inv method s'.
Proof.
  intros Hms [Hlen Hidx]. pattern instruction. apply opcode_cases.
  - unfold implemented. repeat apply Forall_cons_2; try apply Forall_nil_2;
      cbv beta; intros H; try (frame_step H; fail).
    + discriminate H.
    + unfold exec in H. inv_bind H. discriminate H.
    + unfold exec, next in H. inv_bind H;
        match goal with
        | P : pop_params _ _ _ _ = Ok _ |- _ =>
            apply pop_params_inv in P as [-> Hn]; [|lia ..]
        end;
        cbn [stack idx with_pc with_stack with_idx with_locals with_heap
             with_out] in *;
        injection H as <-; bounds; unfold frame_inv;
        cbn [stack idx with_pc with_stack with_idx with_locals with_heap
             with_out];
        rewrite ?length_insert; (split; [assumption|]);
        unfold size_t in *; Z.to_euclidean_division_equations; lia.
    + unfold exec in H. inv_bind H. discriminate H.
  - intros Hdef H. rewrite exec_default in H by assumption.
    injection H as <-. split; assumption.
Qed.

Lemma entry_frame_inv (method : method_t) (l : list Z) (h : heap_t)
    (o : list Z) :
  0 <= max_stack (mcode method) < 2 ^ 16 ->
  frame_inv method (entry method l h o).
Proof.
  intros H. unfold frame_inv, entry. cbn [stack idx].
  rewrite calloc_small by lia. rewrite length_replicate. lia.
Qed.

(** The loop of [execute] goes from boundary to boundary. *)
Lemma run_next_boundary (fuel : nat) (class : class_file_t)
    (method : method_t) (s : state) (instruction : Z) (s' : state) :
  boundary class method s ->
  pc s < code_length (mcode method) ->
  load (code (mcode method)) (pc s) = Ok instruction ->
  exec (call_execute fuel class) class method instruction s = Ok (Next s') ->
  boundary class method s' /\
  run (S fuel) class method s = run fuel class method s'.
Proof.
  intros Hb Hpc Hop Hex. split.
  - exact (boundary_next class method fuel s instruction s' Hb Hpc Hop Hex).
  - rewrite run_S.
    destruct (Z.ltb_spec (pc s) (code_length (mcode method))); [|lia].
    rewrite Hop. cbn [bind]. rewrite Hex. reflexivity.
Qed.

(** C5. In a run with no violation, at every instruction boundary of every
    frame, the depth [idx] of the operand stack lies in [0, max_stack] of
    the method of the frame (and the stack has [max_stack] slots), for
    every opcode, the unknown ones included. *)
Theorem stack_depth_within_max_stack
    (class : class_file_t) (method : method_t) (s : state) :
  0 <= max_stack (mcode method) < 2 ^ 16 ->
  boundary class method s ->
  0 <= idx s <= max_stack (mcode method) /\
  Z.of_nat (length (stack s)) = max_stack (mcode method).
Proof.
  intros Hms Hb.
  assert (I : frame_inv method s).
  { induction Hb as [l h o|fuel s instruction s' Hb IH Hpc Hop Hex].
    - apply entry_frame_inv. assumption.
    - apply (exec_keeps_frame_inv (call_execute fuel class) class method
               instruction s s'); [lia|assumption|assumption]. }
  destruct I as [Hlen Hidx]. split; assumption.
Qed.

Lemma stack_depth_within_max_stack_witness :
  let m := {| n_params := 1;
              mcode := {| max_stack := 2; max_locals := 1;
                          code := [i_iconst_3; i_iconst_4; i_iadd;
                                   i_return] |} |} in
  let class := {| constant_pool := []; methods := [m] |} in
  let s := {| pc := 2; stack := [3; 4]; idx := 2; locals := [0];
              heap := []; out := [] |} in
  boundary class m s /\ 0 <= idx s <= max_stack (mcode m) /\
  Z.of_nat (length (stack s)) = max_stack (mcode m).
Proof.
  intros m class s.
  assert (M : 0 <= max_stack (mcode m) < 2 ^ 16) by (subst m; simpl; lia).
  assert (B : boundary class m s).
  { apply (boundary_next class m 0
             {| pc := 1; stack := [3; 0]; idx := 1; locals := [0];
                heap := []; out := [] |} i_iconst_4 s).
    - apply (boundary_next class m 0 (entry m [0] [] []) i_iconst_3).
      + apply boundary_entry.
      + subst m. unfold code_length. simpl. lia.
      + reflexivity.
      + reflexivity.
    - subst m. unfold code_length. simpl. lia.
    - reflexivity.
    - reflexivity. }
  split; [exact B|].
  exact (stack_depth_within_max_stack class m s M B).
Defined.

(** ** The fuel of the model *)

Lemma bind_not_timeout {A B : Type} (e : result A) (k : A -> result B) :
  bind e k <> Timeout -> e <> Timeout.
Proof. destruct e; simpl; congruence. Qed.

(** Only [i_invokestatic] looks at the callee, and an answer of the callee
    is all it takes from it. *)
Lemma exec_extends (call call' : callee) (class : class_file_t)
    (method : method_t) (instruction : Z) (s : state) :
  extends call call' ->
  exec call class method instruction s <> Timeout ->
  exec call' class method instruction s
  = exec call class method instruction s.
Proof.
  intros Hext. pattern instruction. apply opcode_cases.
  - unfold implemented. repeat apply Forall_cons_2; try apply Forall_nil_2;
      cbv beta; intros H; try reflexivity.
    unfold exec in *.
    destruct (load (code (mcode method)) (size_t (pc s + 1))) as [b1| | |];
      cbn [bind] in *; try reflexivity.
    destruct (load (code (mcode method)) (size_t (pc s + 2))) as [b2| | |];
      cbn [bind] in *; try reflexivity.
    destruct (find_method_from_index (imm16 b1 b2) class) as [m|];
      [|reflexivity].
    destruct (pop_params (Z.to_nat (get_number_of_parameters m))
                (calloc (max_locals (mcode m)) 4) (stack s) (idx s))
      as [[lq i]| | |]; cbn [bind] in *; try reflexivity.
    apply bind_not_timeout in H. rewrite (Hext m lq (heap s) (out s) H).
    reflexivity.
  - intros Hdef _. rewrite !exec_default by assumption. reflexivity.
Qed.

(** More fuel does not change an answer. *)
Lemma run_more_fuel (fuel : nat) :
  forall (class : class_file_t) (method : method_t) (s : state),
  run fuel class method s <> Timeout ->
  run (S fuel) class method s = run fuel class method s.
Proof.
  induction fuel as [|fuel IH]; intros class method s H.
  - exfalso. apply H. reflexivity.
  - assert (Hext : extends (call_execute fuel class)
                     (call_execute (S fuel) class)).
    { intros m l h o Hc. unfold call_execute, execute in *.
      apply bind_not_timeout in Hc. rewrite (IH _ _ _ Hc). reflexivity. }
    rewrite (run_S (S fuel)). rewrite (run_S fuel) in *.
    destruct (pc s <? code_length (mcode method)); [|reflexivity].
    destruct (load (code (mcode method)) (pc s)) as [instruction| | |];
      cbn [bind] in *; try reflexivity.
    pose proof (bind_not_timeout _ _ H) as He.
    rewrite (exec_extends _ _ class method instruction s Hext He).
    destruct (exec (call_execute fuel class) class method instruction s)
      as [[s'|v s']| | |]; cbn [bind] in *; try reflexivity.
    apply IH. exact H.
Qed.

Lemma run_fuel_le (fuel fuel' : nat) (class : class_file_t)
    (method : method_t) (s : state) :
  (fuel <= fuel')%nat ->
  run fuel class method s <> Timeout ->
  run fuel' class method s = run fuel class method s.
Proof.
  intros Hle H. induction Hle as [|k Hle IH]; [reflexivity|].
  rewrite run_more_fuel; rewrite IH; [reflexivity|exact H].
Qed.

(** The fuel decides only whether the model has an answer: two amounts
    of fuel that both give one give the same. *)
Lemma execute_fuel_irrelevant (fuel1 fuel2 : nat) (method : method_t)
    (l : list Z) (class : class_file_t) (h : heap_t) (o : list Z) :
  execute fuel1 method l class h o <> Timeout ->
  execute fuel2 method l class h o <> Timeout ->
  execute fuel1 method l class h o = execute fuel2 method l class h o.
Proof.
  unfold execute. intros N1 N2.
  rewrite <- (run_fuel_le fuel1 (Nat.max fuel1 fuel2)) by (lia || exact N1).
  rewrite <- (run_fuel_le fuel2 (Nat.max fuel1 fuel2)) by (lia || exact N2).
  reflexivity.
Qed.

(** ** The scenarios of the specification *)

(** E1: 3 + 4 is printed as 7. *)
Example scenario_addition :
  observe (execute 10
             (method_of 1 2 1
                [i_getstatic; 0; 0; i_iconst_3; i_iconst_4; i_iadd;
                 i_invokevirtual; 0; 0; i_return])
             [0] {| constant_pool := []; methods := [] |} [] [])
  = Ok (None, [0], [], [7]).
Proof. vm_compute. reflexivity. Qed.

(** E2: 10 - 3 is printed as 7. *)
Example scenario_subtraction :
  observe (execute 10
             (method_of 1 2 1
                [i_getstatic; 0; 0; i_bipush; 10; i_iconst_3; i_isub;
                 i_invokevirtual; 0; 0; i_return])
             [0] {| constant_pool := []; methods := [] |} [] [])
  = Ok (None, [0], [], [7]).
Proof. vm_compute. reflexivity. Qed.

(** E3: 5 / 0 is a fault, and nothing is printed. *)
Example scenario_division_by_zero :
  observe (execute 10
             (method_of 1 2 1
                [i_getstatic; 0; 0; i_iconst_5; i_iconst_0; i_idiv;
                 i_invokevirtual; 0; 0; i_return])
             [0] {| constant_pool := []; methods := [] |} [] [])
  = Fault.
Proof. vm_compute. reflexivity. Qed.

(** E4: the sum of 1 .. 10, by a loop with [iinc] and [if_icmpge]. *)
Example scenario_loop :
  observe (execute 200
             (method_of 1 2 3
                [i_iconst_0; i_istore_1; i_iconst_1; i_istore_2;
                 i_iload_2; i_bipush; 11; i_if_icmpge; 0; 13;
                 i_iload_1; i_iload_2; i_iadd; i_istore_1;
                 i_iinc; 2; 1; i_goto; 255; 243;
                 i_getstatic; 0; 0; i_iload_1; i_invokevirtual; 0; 0;
                 i_return])
             [0; 0; 0] {| constant_pool := []; methods := [] |} [] [])
  = Ok (None, [0; 55; 11], [], [55]).
Proof. vm_compute. reflexivity. Qed.

(** E5: a static call with two parameters, 6 * 7. *)
Example scenario_static_call :
  let mul := method_of 2 2 2 [i_iload_0; i_iload_1; i_imul; i_ireturn] in
  let main :=
    method_of 1 3 1
      [i_getstatic; 0; 0; i_bipush; 6; i_bipush; 7; i_invokestatic; 0; 1;
       i_invokevirtual; 0; 0; i_return] in
  observe (execute 10 main [0]
             {| constant_pool := [CONSTANT_Methodref_info 1%nat];
                methods := [main; mul] |} [] [])
  = Ok (None, [0], [], [42]).
Proof. vm_compute. reflexivity. Qed.

(** E6: an array of 4 cells is filled, then its length and two of its
    cells are printed. *)
Example scenario_array :
  observe (execute 100
             (method_of 1 4 2
                [i_iconst_4; i_newarray; 10; i_astore_1;
                 i_aload_1; i_iconst_0; i_bipush; 10; i_iastore;
                 i_aload_1; i_iconst_1; i_bipush; 20; i_iastore;
                 i_aload_1; i_iconst_2; i_bipush; 30; i_iastore;
                 i_aload_1; i_iconst_3; i_bipush; 40; i_iastore;
                 i_getstatic; 0; 0; i_aload_1; i_arraylength;
                 i_invokevirtual; 0; 0;
                 i_getstatic; 0; 0; i_aload_1; i_iconst_0; i_iaload;
                 i_invokevirtual; 0; 0;
                 i_getstatic; 0; 0; i_aload_1; i_iconst_3; i_iaload;
                 i_invokevirtual; 0; 0; i_return])
             [0; 0] {| constant_pool := []; methods := [] |} [] [])
  = Ok (None, [0; 0], [[4; 10; 20; 30; 40]], [4; 10; 40]).
Proof. vm_compute. reflexivity. Qed.

(** [ineg] of [INT_MIN] is [INT_MIN]; an empty method returns void. *)
Example scenario_boundaries :
  observe (execute 10
             (method_of 0 1 0
                [i_ldc; 1; i_ineg; i_invokevirtual; 0; 0; i_return])
             [] {| constant_pool := [CONSTANT_Integer_info (-2147483648)];
                   methods := [] |} [] [])
  = Ok (None, [], [], [-2147483648]) /\
  observe (execute 1 (method_of 0 0 0 []) []
             {| constant_pool := []; methods := [] |} [] [])
  = Ok (None, [], [], []).
Proof. split; vm_compute; reflexivity. Qed.

(** * Further properties of [execute] and [main] *)

(** ** Constants and arithmetic *)

Lemma int32_testbit (x n : Z) :
  0 <= n < 32 -> Z.testbit (int32 x) n = Z.testbit x n.
Proof.
  intros Hn.
  rewrite <- (Z.mod_pow2_bits_low (int32 x) 32 n) by lia.
  rewrite int32_congruent.
  apply Z.mod_pow2_bits_low. lia.
Qed.

(** X1. [iconst_m1] ... [iconst_5]: the opcode [3 + k] pushes [k], for [k]
    from -1 to 5, and [pc] advances by 1. *)
Theorem iconst_pushes_opcode_minus_three
    (call : callee) (class : class_file_t) (method : method_t) (s : state)
    (instruction : Z) :
  running method s ->
  idx s < Z.of_nat (length (stack s)) ->
  i_iconst_m1 <= instruction <= i_iconst_5 ->
  exec call class method instruction s
  = Ok (Next (with_pc (pc s + 1) (pushed (instruction - 3) s))).
Proof.
  intros (Hpc & Hlen & Hidx & Hstk) Hroom Hk.
  assert (E : int32 (int8 (instruction - 3)) = instruction - 3).
  { rewrite int32_int8. apply (wrap_id 8); simpl; lia. }
  assert (C : instruction = 2 \/ instruction = 3 \/ instruction = 4 \/
              instruction = 5 \/ instruction = 6 \/ instruction = 7 \/
              instruction = 8) by lia.
  destruct C as [->|[->|[->|[->|[->|[->| ->]]]]]];
    unfold exec; rewrite E, store_in by lia; cbn [bind]; unfold next;
    rewrite !size_t_id by lia; do 2 f_equal;
    apply state_eq; reflexivity.
Qed.

Lemma iconst_pushes_opcode_minus_three_witness :
  let m := method_of 0 1 0 [i_iconst_m1] in
  let s := {| pc := 0; stack := [0]; idx := 0; locals := [];
              heap := []; out := [] |} in
  exec (fun _ _ _ _ => Timeout) {| constant_pool := []; methods := [] |}
    m i_iconst_m1 s
  = Ok (Next {| pc := 1; stack := [-1]; idx := 1; locals := [];
                heap := []; out := [] |}).
Proof.
  intros m s.
  assert (R : running m s)
    by (subst m s; unfold running, code_length; simpl; lia).
  assert (I : idx s < Z.of_nat (length (stack s))) by (subst s; simpl; lia).
  exact (iconst_pushes_opcode_minus_three (fun _ _ _ _ => Timeout)
           {| constant_pool := []; methods := [] |} m s i_iconst_m1 R I
           ltac:(lia)).
Defined.

(** X2. [iadd], [isub] and [imul] on a stack ..., a, b pop both and push
    [a + b], [a - b] (the top is subtracted) and [a * b] modulo [2^32]:
    the number pushed is in the [int32_t] range and congruent to the
    exact result, so it is the exact result whenever that fits. *)
Theorem iadd_isub_imul_wrap
    (call : callee) (class : class_file_t) (method : method_t) (s : state) :
  running method s -> 2 <= idx s ->
  exec call class method i_iadd s
  = Ok (Next (with_pc (pc s + 1)
               (pushed (int32 (slot 2 s + slot 1 s)) (popped 2 s)))) /\
  exec call class method i_isub s
  = Ok (Next (with_pc (pc s + 1)
               (pushed (int32 (slot 2 s - slot 1 s)) (popped 2 s)))) /\
  exec call class method i_imul s
  = Ok (Next (with_pc (pc s + 1)
               (pushed (int32 (slot 2 s * slot 1 s)) (popped 2 s)))) /\
  (forall x, - 2 ^ 31 <= int32 x < 2 ^ 31 /\
             int32 x mod 2 ^ 32 = x mod 2 ^ 32 /\
             (- 2 ^ 31 <= x < 2 ^ 31 -> int32 x = x)).
Proof.
  intros Hrun H2. unfold exec.
  rewrite !(binop_pops_two_pushes_one _ method) by assumption.
  rewrite (Z.add_comm (slot 1 s)), (Z.mul_comm (slot 1 s)).
  repeat split; try reflexivity.
  - apply int32_range.
  - apply int32_range.
  - apply int32_congruent.
  - apply int32_id.
Qed.

Lemma iadd_isub_imul_wrap_witness :
  let m := method_of 0 2 0 [i_isub] in
  let s := {| pc := 0; stack := [10; 3]; idx := 2; locals := [];
              heap := []; out := [] |} in
  exec (fun _ _ _ _ => Timeout) {| constant_pool := []; methods := [] |}
    m i_isub s
  = Ok (Next {| pc := 1; stack := [7; 3]; idx := 1; locals := [];
                heap := []; out := [] |}).
Proof.
  intros m s.
  assert (R : running m s)
    by (subst m s; unfold running, code_length; simpl; lia).
  assert (I : 2 <= idx s) by (subst s; simpl; lia).
  exact (proj1 (proj2
    (iadd_isub_imul_wrap (fun _ _ _ _ => Timeout)
       {| constant_pool := []; methods := [] |} m s R I))).
Defined.

(** X3. [iand], [ior] and [ixor] on a stack ..., a, b pop both and push the
    number whose bit [n], for every [n] below 32, is the conjunction,
    disjunction or exclusive disjunction of bit [n] of [a] and of [b]. *)
Theorem iand_ior_ixor_bitwise
    (call : callee) (class : class_file_t) (method : method_t) (s : state) :
  running method s -> 2 <= idx s ->
  exec call class method i_iand s
  = Ok (Next (with_pc (pc s + 1)
               (pushed (int32 (Z.land (slot 2 s) (slot 1 s))) (popped 2 s)))) /\
  exec call class method i_ior s
  = Ok (Next (with_pc (pc s + 1)
               (pushed (int32 (Z.lor (slot 2 s) (slot 1 s))) (popped 2 s)))) /\
  exec call class method i_ixor s
  = Ok (Next (with_pc (pc s + 1)
               (pushed (int32 (Z.lxor (slot 2 s) (slot 1 s))) (popped 2 s)))) /\
  (forall a b n, 0 <= n < 32 ->
     Z.testbit (int32 (Z.land a b)) n = Z.testbit a n && Z.testbit b n /\
     Z.testbit (int32 (Z.lor a b)) n = Z.testbit a n || Z.testbit b n /\
     Z.testbit (int32 (Z.lxor a b)) n = xorb (Z.testbit a n) (Z.testbit b n)).
Proof.
  intros Hrun H2. unfold exec.
  rewrite !(binop_pops_two_pushes_one _ method) by assumption.
  rewrite (Z.land_comm (slot 1 s)), (Z.lor_comm (slot 1 s)),
    (Z.lxor_comm (slot 1 s)).
  split; [reflexivity|]. split; [reflexivity|]. split; [reflexivity|].
  intros a b n Hn. rewrite !int32_testbit by assumption.
  rewrite Z.land_spec, Z.lor_spec, Z.lxor_spec.
  repeat split.
Qed.

Lemma iand_ior_ixor_bitwise_witness :
  let m := method_of 0 2 0 [i_ixor] in
  let s := {| pc := 0; stack := [12; 10]; idx := 2; locals := [];
              heap := []; out := [] |} in
  exec (fun _ _ _ _ => Timeout) {| constant_pool := []; methods := [] |}
    m i_ixor s
  = Ok (Next {| pc := 1; stack := [6; 10]; idx := 1; locals := [];
                heap := []; out := [] |}).
Proof.
  intros m s.
  assert (R : running m s)
    by (subst m s; unfold running, code_length; simpl; lia).
  assert (I : 2 <= idx s) by (subst s; simpl; lia).
  exact (proj1 (proj2 (proj2
    (iand_ior_ixor_bitwise (fun _ _ _ _ => Timeout)
       {| constant_pool := []; methods := [] |} m s R I)))).
Defined.

Lemma load_out (a : list Z) (i : Z) :
  ~ (0 <= i < Z.of_nat (length a)) -> load a i = Undefined.
Proof.
  intros H. unfold load. destruct (Z.leb_spec 0 i); [|reflexivity].
  rewrite lookup_ge_None_2 by lia. reflexivity.
Qed.

Lemma store_out (a : list Z) (i v : Z) :
  ~ (0 <= i < Z.of_nat (length a)) -> store a i v = Undefined.
Proof.
  intros H. unfold store. destruct (Z.leb_spec 0 i); [|reflexivity].
  destruct (Z.ltb_spec i (Z.of_nat (length a))); [lia|reflexivity].
Qed.

(** With nothing on the stack, the slot below [idx] is not a slot. *)
Lemma load_top_of_empty (s : state) :
  idx s = 0 -> Z.of_nat (length (stack s)) < 2 ^ 16 ->
  load (stack s) (size_t (idx s - 1)) = Undefined.
Proof.
  intros E H. apply load_out. rewrite E. unfold size_t.
  change ((0 - 1) mod 2 ^ 64) with 18446744073709551615. lia.
Qed.

Lemma slot_lookup (s : state) (k : Z) :
  0 < k <= idx s -> idx s <= Z.of_nat (length (stack s)) ->
  stack s !! Z.to_nat (idx s - k) = Some (slot k s).
Proof.
  intros Hk Hi. unfold slot.
  destruct (lookup_lt_is_Some_2 (stack s) (Z.to_nat (idx s - k))) as [v Hv];
    [lia|].
  rewrite Hv. reflexivity.
Qed.

Lemma int32_neg_neg (v : Z) :
  - 2 ^ 31 <= v < 2 ^ 31 -> int32 (- int32 (- v)) = v.
Proof.
  intros H. unfold int32, wrap. change (2 ^ (32 - 1)) with 2147483648.
  change (2 ^ 32) with 4294967296. change (2 ^ 31) with 2147483648 in H.
  Z.to_euclidean_division_equations. lia.
Qed.

(** X4. [ineg] replaces the top [v] of the stack by [-v] modulo [2^32] and
    leaves the depth as it is; [INT_MIN] is its own negation, and a second
    [ineg] gives back the stack of before. *)
Theorem ineg_negates_and_is_an_involution
    (call : callee) (class : class_file_t) (method : method_t) (s : state) :
  running method s -> 1 <= idx s ->
  let s1 :=
    with_pc (pc s + 1)
      (with_stack
         (<[Z.to_nat (idx s - 1) := int32 (- slot 1 s)]> (stack s)) s) in
  exec call class method i_ineg s = Ok (Next s1) /\
  int32 (- - 2 ^ 31) = - 2 ^ 31 /\
  (- 2 ^ 31 <= slot 1 s < 2 ^ 31 -> running method s1 ->
   exec call class method i_ineg s1 = Ok (Next (with_pc (pc s + 2) s))).
Proof.
  intros Hrun H1 s1. pose proof Hrun as (Hpc & Hlen & Hidx & Hstk).
  assert (E : exec call class method i_ineg s = Ok (Next s1)).
  { unfold exec. rewrite (load_slot s 1) by lia. cbn [bind].
    rewrite !size_t_id by lia. rewrite store_in by lia. cbn [bind].
    replace (-1 * slot 1 s) with (- slot 1 s) by lia. reflexivity. }
  split; [exact E|]. split; [reflexivity|].
  intros Hv Hrun1. pose proof Hrun1 as (Hpc1 & _).
  assert (T : slot 1 s1 = int32 (- slot 1 s)).
  { unfold slot, s1. cbn [stack idx with_pc with_stack].
    rewrite list_lookup_insert_eq by lia. reflexivity. }
  assert (A : idx s1 = idx s) by reflexivity.
  assert (B : length (stack s1) = length (stack s))
    by (unfold s1; cbn [stack with_pc with_stack]; apply length_insert).
  assert (C : pc s1 = pc s + 1) by reflexivity.
  unfold exec. rewrite (load_slot s1 1) by (rewrite ?A, ?B; lia).
  cbn [bind]. rewrite T.
  replace (-1 * int32 (- slot 1 s)) with (- int32 (- slot 1 s)) by lia.
  rewrite int32_neg_neg by assumption.
  rewrite A, C, !size_t_id by lia.
  rewrite store_in by (rewrite B; lia). cbn [bind]. unfold next.
  do 2 f_equal. apply state_eq; simpl; try reflexivity; [lia|].
  rewrite list_insert_insert_eq. apply list_insert_id.
  apply slot_lookup; lia.
Qed.

Lemma ineg_negates_and_is_an_involution_witness :
  let m := method_of 0 1 0 [i_ineg; i_ineg] in
  let s := {| pc := 0; stack := [5]; idx := 1; locals := [];
              heap := []; out := [] |} in
  exec (fun _ _ _ _ => Timeout) {| constant_pool := []; methods := [] |}
    m i_ineg s
  = Ok (Next {| pc := 1; stack := [-5]; idx := 1; locals := [];
                heap := []; out := [] |}).
Proof.
  intros m s.
  assert (R : running m s)
    by (subst m s; unfold running, code_length; simpl; lia).
  assert (I : 1 <= idx s) by (subst s; simpl; lia).
  exact (proj1 (ineg_negates_and_is_an_involution (fun _ _ _ _ => Timeout)
                  {| constant_pool := []; methods := [] |} m s R I)).
Defined.

(** ** The stack and the locals *)

(** X5. [dup] pushes a copy of the top of the stack; with nothing on the
    stack, or with no slot left, it is an access outside the stack. *)
Theorem dup_copies_top_or_is_out_of_bounds
    (call : callee) (class : class_file_t) (method : method_t) (s : state) :
  running method s ->
  (1 <= idx s -> idx s < Z.of_nat (length (stack s)) ->
   exec call class method i_dup s
   = Ok (Next (with_pc (pc s + 1) (pushed (slot 1 s) s)))) /\
  (idx s = 0 -> exec call class method i_dup s = Undefined) /\
  (idx s = Z.of_nat (length (stack s)) ->
   exec call class method i_dup s = Undefined).
Proof.
  intros (Hpc & Hlen & Hidx & Hstk). split; [|split].
  - intros H1 Hroom. unfold exec. rewrite (load_slot s 1) by lia.
    cbn [bind]. rewrite store_in by lia. cbn [bind]. unfold next.
    rewrite !size_t_id by lia. reflexivity.
  - intros H0. unfold exec. rewrite load_top_of_empty by assumption.
    reflexivity.
  - intros Hfull. unfold exec.
    destruct (Z.eq_dec (idx s) 0) as [H0|H0].
    + rewrite load_top_of_empty by assumption. reflexivity.
    + rewrite (load_slot s 1) by lia. cbn [bind].
      rewrite store_out by lia. reflexivity.
Qed.

Lemma dup_copies_top_or_is_out_of_bounds_witness :
  let m := method_of 0 2 0 [i_dup] in
  let s := {| pc := 0; stack := [9; 0]; idx := 1; locals := [];
              heap := []; out := [] |} in
  exec (fun _ _ _ _ => Timeout) {| constant_pool := []; methods := [] |}
    m i_dup s
  = Ok (Next {| pc := 1; stack := [9; 9]; idx := 2; locals := [];
                heap := []; out := [] |}).
Proof.
  intros m s.
  assert (R : running m s)
    by (subst m s; unfold running, code_length; simpl; lia).
  exact (proj1 (dup_copies_top_or_is_out_of_bounds
                  (fun _ _ _ _ => Timeout)
                  {| constant_pool := []; methods := [] |} m s R)
           ltac:(subst s; simpl; lia) ltac:(subst s; simpl; lia)).
Defined.

Lemma store_local_spec (method : method_t) (s : state) (k len : Z) :
  running method s -> 1 <= idx s -> 0 <= len <= 3 ->
  0 <= k < Z.of_nat (length (locals s)) ->
  store_local k len s
  = Ok (Next (with_pc (pc s + len)
               (popped 1
                  (with_locals (<[Z.to_nat k := slot 1 s]> (locals s)) s)))).
Proof.
  intros (Hpc & Hlen & Hidx & Hstk) H1 Hl Hk. unfold store_local.
  rewrite (load_slot s 1) by lia. cbn [bind].
  rewrite store_in by lia. cbn [bind].
  rewrite !size_t_id by lia. reflexivity.
Qed.

Lemma load_local_spec (method : method_t) (s : state) (k len v : Z) :
  running method s -> idx s < Z.of_nat (length (stack s)) ->
  0 <= len <= 3 -> 0 <= k -> locals s !! Z.to_nat k = Some v ->
  load_local k len s = Ok (Next (with_pc (pc s + len) (pushed v s))).
Proof.
  intros (Hpc & Hlen & Hidx & Hstk) Hroom Hl Hk Hv. unfold load_local.
  rewrite (load_lookup _ _ v) by assumption. cbn [bind].
  rewrite store_in by lia. cbn [bind].
  rewrite !size_t_id by lia. reflexivity.
Qed.

Lemma exec_store_form (call : callee) (class : class_file_t)
    (method : method_t) (s : state) (instruction k len : Z) :
  running method s ->
  store_form method s instruction = Some (k, len) ->
  1 <= len <= 2 /\
  exec call class method instruction s = store_local k len s.
Proof.
  intros (Hpc & Hlen & Hidx & Hstk) H.
  destruct instruction as [|p|p]; try discriminate H.
  do 8 (try destruct p as [p|p|]); try discriminate H; cbn in H;
    try (injection H as <- <-; split; [lia|reflexivity]);
    unfold operand in H;
    destruct (code (mcode method) !! Z.to_nat (pc s + 1)) as [b|] eqn:E;
    try discriminate H; injection H as <- <-; (split; [lia|]);
    unfold exec; rewrite size_t_id by lia;
    rewrite (load_lookup _ _ b) by (lia || assumption); reflexivity.
Qed.

Lemma exec_load_form (call : callee) (class : class_file_t)
    (method : method_t) (s : state) (instruction k len : Z) :
  running method s ->
  load_form method s instruction = Some (k, len) ->
  1 <= len <= 2 /\
  exec call class method instruction s = load_local k len s.
Proof.
  intros (Hpc & Hlen & Hidx & Hstk) H.
  destruct instruction as [|p|p]; try discriminate H.
  do 8 (try destruct p as [p|p|]); try discriminate H; cbn in H;
    try (injection H as <- <-; split; [lia|reflexivity]);
    unfold operand in H;
    destruct (code (mcode method) !! Z.to_nat (pc s + 1)) as [b|] eqn:E;
    try discriminate H; injection H as <- <-; (split; [lia|]);
    unfold exec; rewrite size_t_id by lia;
    rewrite (load_lookup _ _ b) by (lia || assumption); reflexivity.
Qed.

(** X6. The instructions that pop into a local ([istore], [astore] and their
    one-byte forms) write the top of the stack to the local [k] they name
    when [locals] has a cell [k], and are an access outside [locals]
    otherwise: the array is never extended.  An instruction that pushes
    the local [k] ([iload], [aload] and their one-byte forms, of either
    kind) right after gives back the stack of before the store. *)
Theorem store_then_load_local
    (call : callee) (class : class_file_t) (method : method_t) (s : state)
    (store_op k len1 : Z) :
  running method s -> 1 <= idx s ->
  store_form method s store_op = Some (k, len1) ->
  let s1 :=
    with_pc (pc s + len1)
      (popped 1 (with_locals (<[Z.to_nat k := slot 1 s]> (locals s)) s)) in
  (~ (0 <= k < Z.of_nat (length (locals s))) ->
   exec call class method store_op s = Undefined) /\
  (0 <= k < Z.of_nat (length (locals s)) ->
   exec call class method store_op s = Ok (Next s1) /\
   forall load_op len2,
     running method s1 ->
     load_form method s1 load_op = Some (k, len2) ->
     exec call class method load_op s1
     = Ok (Next (with_pc (pc s + len1 + len2)
                  (with_locals (<[Z.to_nat k := slot 1 s]> (locals s)) s)))).
Proof.
  intros Hrun H1 Hst s1. pose proof Hrun as (Hpc & Hlen & Hidx & Hstk).
  destruct (exec_store_form call class method s store_op k len1 Hrun Hst)
    as [Hl1 ->].
  split.
  - intros Hout. unfold store_local.
    rewrite (load_slot s 1) by lia. cbn [bind].
    rewrite store_out by assumption. reflexivity.
  - intros Hk. split; [apply (store_local_spec method); assumption || lia|].
    intros load_op len2 Hrun1 Hld.
    destruct (exec_load_form call class method s1 load_op k len2 Hrun1 Hld)
      as [Hl2 ->].
    rewrite (load_local_spec method s1 k len2 (slot 1 s)); try assumption.
    + unfold next. do 2 f_equal. apply state_eq; simpl; try reflexivity.
      * apply list_insert_id. apply slot_lookup; lia.
      * lia.
    + simpl. lia.
    + lia.
    + lia.
    + simpl. apply list_lookup_insert_eq. lia.
Qed.

Lemma store_then_load_local_witness :
  let m := method_of 0 1 2 [i_istore; 1; i_aload_1; i_return] in
  let s := {| pc := 0; stack := [7]; idx := 1; locals := [0; 0];
              heap := []; out := [] |} in
  let class := {| constant_pool := []; methods := [] |} in
  exec (fun _ _ _ _ => Timeout) class m i_istore s
  = Ok (Next {| pc := 2; stack := [7]; idx := 0; locals := [0; 7];
                heap := []; out := [] |}) /\
  exec (fun _ _ _ _ => Timeout) class m i_aload_1
    {| pc := 2; stack := [7]; idx := 0; locals := [0; 7];
       heap := []; out := [] |}
  = Ok (Next {| pc := 3; stack := [7]; idx := 1; locals := [0; 7];
                heap := []; out := [] |}).
Proof.
  intros m s class.
  assert (R : running m s)
    by (subst m s; unfold running, code_length; simpl; lia).
  assert (I : 1 <= idx s) by (subst s; simpl; lia).
  assert (K : 0 <= 1 < Z.of_nat (length (locals s)))
    by (subst s; simpl; lia).
  pose proof (proj2 (store_then_load_local (fun _ _ _ _ => Timeout) class
                       m s i_istore 1 2 R I eq_refl) K) as [E L].
  split; [exact E|].
  apply (L i_aload_1 1); [|reflexivity].
  subst m s. unfold running, code_length. simpl. lia.
Defined.

(** X7. [iinc k c] adds the byte [c], read as a signed 8-bit number, to the
    local [k], modulo [2^32], and advances [pc] by 3; the stack, its
    depth, the heap and the output are not touched.  When [locals] has no
    cell [k] it is an access outside [locals]. *)
Theorem iinc_adds_signed_byte_to_local
    (call : callee) (class : class_file_t) (method : method_t) (s : state)
    (k c : Z) :
  running method s ->
  operand method s 1 = Some k -> operand method s 2 = Some c ->
  (forall v, 0 <= k -> locals s !! Z.to_nat k = Some v ->
     exec call class method i_iinc s
     = Ok (Next (with_pc (pc s + 3)
                  (with_locals
                     (<[Z.to_nat k := int32 (v + int8 c)]> (locals s)) s)))) /\
  (~ (0 <= k < Z.of_nat (length (locals s))) ->
   exec call class method i_iinc s = Undefined) /\
  (0 <= c < 256 -> int8 c = if c <? 128 then c else c - 256).
Proof.
  intros (Hpc & Hlen & Hidx & Hstk) Hk Hc. unfold operand in *.
  split; [|split].
  - intros v Hk0 Hv. unfold exec.
    rewrite (size_t_id (pc s + 1)), (size_t_id (pc s + 2)) by lia.
    rewrite (load_lookup _ _ k) by (lia || assumption). cbn [bind].
    rewrite (load_lookup _ _ c) by (lia || assumption). cbn [bind].
    rewrite (load_lookup _ _ v) by assumption. cbn [bind].
    pose proof (lookup_lt_Some _ _ _ Hv). rewrite store_in by lia.
    cbn [bind]. rewrite size_t_id by lia. reflexivity.
  - intros Hout. unfold exec.
    rewrite (size_t_id (pc s + 1)), (size_t_id (pc s + 2)) by lia.
    rewrite (load_lookup _ _ k) by (lia || assumption). cbn [bind].
    rewrite (load_lookup _ _ c) by (lia || assumption). cbn [bind].
    rewrite load_out by assumption. reflexivity.
  - apply int8_spec.
Qed.

Lemma iinc_adds_signed_byte_to_local_witness :
  let m := method_of 0 0 1 [i_iinc; 0; 255] in
  let s := {| pc := 0; stack := []; idx := 0; locals := [10];
              heap := []; out := [] |} in
  exec (fun _ _ _ _ => Timeout) {| constant_pool := []; methods := [] |}
    m i_iinc s
  = Ok (Next {| pc := 3; stack := []; idx := 0; locals := [9];
                heap := []; out := [] |}).
Proof.
  intros m s.
  assert (R : running m s)
    by (subst m s; unfold running, code_length; simpl; lia).
  exact (proj1 (iinc_adds_signed_byte_to_local (fun _ _ _ _ => Timeout)
                  {| constant_pool := []; methods := [] |} m s 0 255 R
                  eq_refl eq_refl) 10 ltac:(lia) eq_refl).
Defined.

(** X8. [ldc b] pushes the integer constant of the entry [b - 1] of the
    constant pool, the index [b] counting from 1, and advances [pc] by 2;
    the index 0 and an index past the pool are accesses outside the
    pool. *)
Theorem ldc_pushes_constant_at_one_based_index
    (call : callee) (class : class_file_t) (method : method_t) (s : state)
    (b : Z) :
  running method s -> idx s < Z.of_nat (length (stack s)) ->
  operand method s 1 = Some b ->
  (forall v, 1 <= b ->
     constant_pool class !! Z.to_nat (b - 1) = Some (CONSTANT_Integer_info v) ->
     exec call class method i_ldc s
     = Ok (Next (with_pc (pc s + 2) (pushed v s)))) /\
  (b = 0 -> exec call class method i_ldc s = Undefined) /\
  (Z.of_nat (length (constant_pool class)) < b ->
   exec call class method i_ldc s = Undefined).
Proof.
  intros (Hpc & Hlen & Hidx & Hstk) Hroom Hb. unfold operand in Hb.
  assert (E : exec call class method i_ldc s
              = (v <- constant_integer class (b - 1);;
                 stk <- store (stack s) (idx s) v;;
                 next (with_idx (size_t (idx s + 1))
                        (with_pc (size_t (pc s + 2)) (with_stack stk s))))).
  { unfold exec. rewrite size_t_id by lia.
    rewrite (load_lookup _ _ b) by (lia || assumption). reflexivity. }
  rewrite E. clear E.
  split; [|split].
  - intros v H1 Hv. unfold constant_integer.
    destruct (Z.leb_spec 0 (b - 1)); [|lia]. rewrite Hv. cbn [bind].
    rewrite store_in by lia. cbn [bind]. rewrite !size_t_id by lia.
    reflexivity.
  - intros ->. reflexivity.
  - intros Hbig. unfold constant_integer.
    destruct (Z.leb_spec 0 (b - 1)); [|reflexivity].
    rewrite lookup_ge_None_2 by lia. reflexivity.
Qed.

Lemma ldc_pushes_constant_at_one_based_index_witness :
  let m := method_of 0 1 0 [i_ldc; 1] in
  let class := {| constant_pool := [CONSTANT_Integer_info 100000];
                  methods := [] |} in
  let s := {| pc := 0; stack := [0]; idx := 0; locals := [];
              heap := []; out := [] |} in
  exec (fun _ _ _ _ => Timeout) class m i_ldc s
  = Ok (Next {| pc := 2; stack := [100000]; idx := 1; locals := [];
                heap := []; out := [] |}).
Proof.
  intros m class s.
  assert (R : running m s)
    by (subst m s; unfold running, code_length; simpl; lia).
  assert (I : idx s < Z.of_nat (length (stack s))) by (subst s; simpl; lia).
  exact (proj1 (ldc_pushes_constant_at_one_based_index
                  (fun _ _ _ _ => Timeout) class m s 1 R I eq_refl)
           100000 ltac:(lia) eq_refl).
Defined.

(** ** Output and the end of a frame *)

(** X9. [invokevirtual] pops the top of the stack and prints it as one more
    line, whatever its two index bytes are, and advances [pc] by 3; with
    nothing on the stack the value it reads to print is outside the
    stack.  [getstatic] only advances [pc] by 3. *)
Theorem invokevirtual_prints_top_getstatic_skips
    (call : callee) (class : class_file_t) (method : method_t) (s : state) :
  running method s ->
  (1 <= idx s ->
   exec call class method i_invokevirtual s
   = Ok (Next (with_pc (pc s + 3)
                (with_out (out s ++ [slot 1 s]) (popped 1 s))))) /\
  (idx s = 0 -> exec call class method i_invokevirtual s = Undefined) /\
  exec call class method i_getstatic s = Ok (Next (with_pc (pc s + 3) s)).
Proof.
  intros (Hpc & Hlen & Hidx & Hstk). split; [|split].
  - intros H1. unfold exec. rewrite (load_slot s 1) by lia. cbn [bind].
    rewrite !size_t_id by lia. reflexivity.
  - intros H0. unfold exec. rewrite load_top_of_empty by assumption.
    reflexivity.
  - unfold exec. rewrite size_t_id by lia. reflexivity.
Qed.

Lemma invokevirtual_prints_top_getstatic_skips_witness :
  let m := method_of 0 1 0 [i_invokevirtual] in
  let s := {| pc := 0; stack := [42]; idx := 1; locals := [];
              heap := []; out := [7] |} in
  exec (fun _ _ _ _ => Timeout) {| constant_pool := []; methods := [] |}
    m i_invokevirtual s
  = Ok (Next {| pc := 3; stack := [42]; idx := 0; locals := [];
                heap := []; out := [7; 42] |}).
Proof.
  intros m s.
  assert (R : running m s)
    by (subst m s; unfold running, code_length; simpl; lia).
  exact (proj1 (invokevirtual_prints_top_getstatic_skips
                  (fun _ _ _ _ => Timeout)
                  {| constant_pool := []; methods := [] |} m s R)
           ltac:(subst s; simpl; lia)).
Defined.

(** X10. A frame ends in three ways.  When [pc] is not below [code_length]
    (so at once for a method with no code) [execute] returns void.  At
    [return] it returns void.  At [ireturn] and [areturn], which are the
    same, it returns the top of the stack, or is an access outside the
    stack when the stack is empty.  In each case the bytes that follow are
    not executed and the locals, the heap and the output are those of
    before the instruction. *)
Theorem frame_ends_past_code_or_at_return
    (fuel : nat) (class : class_file_t) (method : method_t) (s : state) :
  0 <= pc s -> 0 <= idx s <= Z.of_nat (length (stack s)) ->
  Z.of_nat (length (stack s)) < 2 ^ 16 ->
  (code_length (mcode method) <= pc s ->
   run (S fuel) class method s = Ok (None, s)) /\
  (code (mcode method) !! Z.to_nat (pc s) = Some i_return ->
   run (S fuel) class method s = Ok (None, s)) /\
  (forall instruction,
     instruction = i_ireturn \/ instruction = i_areturn ->
     code (mcode method) !! Z.to_nat (pc s) = Some instruction ->
     (1 <= idx s ->
      run (S fuel) class method s = Ok (Some (slot 1 s), s)) /\
     (idx s = 0 -> run (S fuel) class method s = Undefined)).
Proof.
  intros Hpc Hidx Hstk. split; [|split].
  - apply run_past_end.
  - intros Hop. pose proof (lookup_lt_Some _ _ _ Hop) as Hlt.
    rewrite run_S.
    destruct (Z.ltb_spec (pc s) (code_length (mcode method)));
      [|unfold code_length in *; lia].
    rewrite (load_lookup _ _ i_return) by assumption. reflexivity.
  - intros instruction Hi Hop. pose proof (lookup_lt_Some _ _ _ Hop) as Hlt.
    rewrite run_S.
    destruct (Z.ltb_spec (pc s) (code_length (mcode method)));
      [|unfold code_length in *; lia].
    rewrite (load_lookup _ _ instruction) by assumption. cbn [bind].
    split.
    + intros H1. destruct Hi as [-> | ->]; unfold exec;
        rewrite (load_slot s 1) by lia; reflexivity.
    + intros H0. destruct Hi as [-> | ->]; unfold exec;
        rewrite load_top_of_empty by assumption; reflexivity.
Qed.

Lemma frame_ends_past_code_or_at_return_witness :
  let m := method_of 0 1 0 [i_areturn; i_iconst_0; i_invokevirtual] in
  let s := {| pc := 0; stack := [3]; idx := 1; locals := [];
              heap := [[1; 5]]; out := [] |} in
  run 1 {| constant_pool := []; methods := [] |} m s = Ok (Some 3, s).
Proof.
  intros m s.
  exact (proj1 (proj2 (proj2
    (frame_ends_past_code_or_at_return 0
       {| constant_pool := []; methods := [] |} m s
       ltac:(subst s; simpl; lia) ltac:(subst s; simpl; lia)
       ltac:(subst s; simpl; lia))) i_areturn (or_intror eq_refl) eq_refl)
    ltac:(subst s; simpl; lia)).
Defined.

(** ** What a whole run keeps *)

Lemma heap_grows_refl (h : heap_t) : heap_grows h h.
Proof. intros r arr H. exists arr. split; [exact H|reflexivity]. Qed.

Lemma heap_grows_trans (h1 h2 h3 : heap_t) :
  heap_grows h1 h2 -> heap_grows h2 h3 -> heap_grows h1 h3.
Proof.
  intros H12 H23 r arr H.
  destruct (H12 r arr H) as (arr2 & H2 & L2).
  destruct (H23 r arr2 H2) as (arr3 & H3 & L3).
  exists arr3. split; [exact H3|congruence].
Qed.

Lemma heap_grows_add (h : heap_t) (arr : list Z) :
  heap_grows h (fst (heap_add h arr)).
Proof.
  intros r a H. exists a. split; [|reflexivity].
  unfold heap_add. cbn [fst]. apply lookup_app_l_Some. exact H.
Qed.

Lemma heap_grows_put (h : heap_t) (ref i v : Z) (arr arr' : list Z) :
  heap_get h ref = Ok arr -> store arr i v = Ok arr' ->
  heap_grows h (heap_put h ref arr').
Proof.
  intros Hget Hst r a H. unfold heap_put.
  apply store_length in Hst.
  unfold heap_get in Hget. destruct (0 <=? ref); [|discriminate].
  destruct (h !! Z.to_nat ref) as [x|] eqn:E; [|discriminate].
  injection Hget as ->.
  destruct (decide (r = Z.to_nat ref)) as [->|Hne].
  - exists arr'. split.
    + apply list_lookup_insert_eq. apply lookup_lt_Some in E. exact E.
    + congruence.
  - exists a. split; [|reflexivity].
    transitivity (h !! r); [|exact H].
    apply list_lookup_insert_ne. congruence.
Qed.

Lemma heap_grows_length (h h' : heap_t) :
  heap_grows h h' -> (length h <= length h')%nat.
Proof.
  intros H. destruct (le_lt_dec (length h) (length h')) as [L|L]; [exact L|].
  destruct (lookup_lt_is_Some_2 h (length h') L) as [arr Harr].
  destruct (H _ _ Harr) as (arr' & Harr' & _).
  apply lookup_lt_Some in Harr'. lia.
Qed.

Ltac same_heap H :=
  unfold exec, binop, if_cond, if_icmp, load_local, store_local, next in H;
  inv_bind H; injection H as <-; apply heap_grows_refl.

Lemma exec_heap_grows (call : callee) (class : class_file_t)
    (method : method_t) (instruction : Z) (s : state) (r : step_result) :
  call_grows call ->
  exec call class method instruction s = Ok r ->
  heap_grows (heap s) (heap (landing r)).
Proof.
  intros Hcall. pattern instruction. apply opcode_cases.
  - unfold implemented. repeat apply Forall_cons_2; try apply Forall_nil_2;
      cbv beta; intros H; try (same_heap H; fail).
    + unfold exec, next in H. inv_bind H;
        match goal with
        | C : call _ _ _ _ = Ok _ |- _ => apply Hcall in C
        end;
        injection H as <-; assumption.
    + unfold exec, next in H.
      destruct (load (stack s) (size_t (idx s - 1))) as [n| | |];
        cbn [bind] in H; try discriminate H.
      destruct (assert (n >=? 0)); cbn [bind] in H; try discriminate H.
      destruct (store (calloc (size_t (int32 (n + 1))) 4) 0 n)
        as [arr0| | |]; cbn [bind] in H; try discriminate H.
      destruct (zero_fill (Z.to_nat n) 1 arr0) as [arr| | |];
        cbn [bind] in H; try discriminate H.
      pose proof (heap_grows_add (heap s) arr) as G.
      destruct (heap_add (heap s) arr) as [h' reference]. cbn [fst] in G.
      inv_bind H. injection H as <-. exact G.
    + unfold exec, next in H. inv_bind H. injection H as <-.
      cbn [landing heap with_idx with_pc with_heap].
      eapply heap_grows_put; eassumption.
  - intros Hdef H. rewrite exec_default in H by assumption.
    injection H as <-. apply heap_grows_refl.
Qed.

Lemma run_heap_grows (fuel : nat) :
  forall (class : class_file_t) (method : method_t) (s : state)
         (v : optional_value_t) (s' : state),
  run fuel class method s = Ok (v, s') -> heap_grows (heap s) (heap s').
Proof.
  induction fuel as [|fuel IH]; intros class method s v s' H;
    [discriminate H|].
  assert (Hcall : call_grows (call_execute fuel class)).
  { intros m l h o v0 h' o' Hc. unfold call_execute, execute in Hc.
    destruct (run fuel class m (entry m l h o)) as [[v1 s1]| | |] eqn:E;
      cbn [bind] in Hc; try discriminate Hc.
    injection Hc as _ <- _. apply (IH _ _ _ _ _ E). }
  rewrite run_S in H.
  destruct (pc s <? code_length (mcode method)).
  - inv_bind H.
    match goal with
    | X : exec _ _ _ _ _ = Ok _ |- _ =>
        pose proof (exec_heap_grows _ _ _ _ _ _ Hcall X) as G
    end.
    destruct a0 as [s1|v1 s1]; cbn [landing] in G.
    + apply (heap_grows_trans _ (heap s1)); [exact G|].
      apply (IH _ _ _ _ _ H).
    + injection H as _ <-. exact G.
  - injection H as _ <-. apply heap_grows_refl.
Qed.

(** X11. The heap only grows.  When [execute] returns, callees included, every
    reference of the heap it was given is still a reference, to an array
    of as many cells (its contents may have changed), and the heap has at
    least as many arrays. *)
Theorem execute_only_grows_heap
    (fuel : nat) (method : method_t) (l : list Z) (class : class_file_t)
    (h : heap_t) (o : list Z) (v : optional_value_t) (s : state) :
  execute fuel method l class h o = Ok (v, s) ->
  (length h <= length (heap s))%nat /\
  forall (r : nat) (arr : list Z),
    h !! r = Some arr ->
    exists arr', heap s !! r = Some arr' /\ length arr' = length arr.
Proof.
  intros H. unfold execute in H. apply run_heap_grows in H.
  cbn [entry heap] in H. split; [|exact H].
  apply heap_grows_length. exact H.
Qed.

Lemma execute_only_grows_heap_witness :
  let m := method_of 0 3 0
             [i_iconst_0; i_iconst_0; i_bipush; 9; i_iastore;
              i_iconst_2; i_newarray; 10; i_return] in
  let class := {| constant_pool := []; methods := [] |} in
  (length [[1; 5]] <= length [[1; 9]; [2; 0; 0]])%nat /\
  forall (r : nat) (arr : list Z),
    [[1; 5]] !! r = Some arr ->
    exists arr', [[1; 9]; [2; 0; 0]] !! r = Some arr' /\
                 length arr' = length arr.
Proof.
  intros m class.
  exact (execute_only_grows_heap 10 m [] class [[1; 5]] [] None
           {| pc := 8; stack := [1; 0; 9]; idx := 1; locals := [];
              heap := [[1; 9]; [2; 0; 0]]; out := [] |} eq_refl).
Defined.

Ltac same_locals H :=
  unfold exec, binop, if_cond, if_icmp, load_local, store_local, next in H;
  inv_bind H; try destruct (heap_add _ _); inv_bind H;
  injection H as <-; bounds;
  cbn [landing locals with_pc with_stack with_idx with_locals with_heap
       with_out];
  rewrite ?length_insert; reflexivity.

Lemma exec_keeps_locals_length (call : callee) (class : class_file_t)
    (method : method_t) (instruction : Z) (s : state) (r : step_result) :
  exec call class method instruction s = Ok r ->
  length (locals (landing r)) = length (locals s).
Proof.
  pattern instruction. apply opcode_cases.
  - unfold implemented. repeat apply Forall_cons_2; try apply Forall_nil_2;
      cbv beta; intros H; same_locals H.
  - intros Hdef H. rewrite exec_default in H by assumption.
    injection H as <-. reflexivity.
Qed.

Lemma run_keeps_locals_length (fuel : nat) :
  forall (class : class_file_t) (method : method_t) (s : state)
         (v : optional_value_t) (s' : state),
  run fuel class method s = Ok (v, s') ->
  length (locals s') = length (locals s).
Proof.
  induction fuel as [|fuel IH]; intros class method s v s' H;
    [discriminate H|].
  rewrite run_S in H.
  destruct (pc s <? code_length (mcode method)).
  - inv_bind H.
    match goal with
    | X : exec _ _ _ _ _ = Ok _ |- _ =>
        pose proof (exec_keeps_locals_length _ _ _ _ _ _ X) as G
    end.
    destruct a0 as [s1|v1 s1]; cbn [landing] in G.
    + rewrite <- G. apply (IH _ _ _ _ _ H).
    + injection H as _ <-. exact G.
  - injection H as _ <-. reflexivity.
Qed.

(** X12. The locals keep their size.  When [execute] returns, the array of
    locals it was given has as many cells as before: no instruction,
    [istore], [astore] and [iinc] included, adds or removes a cell, and a
    callee works on locals of its own. *)
Theorem execute_keeps_locals_size
    (fuel : nat) (method : method_t) (l : list Z) (class : class_file_t)
    (h : heap_t) (o : list Z) (v : optional_value_t) (s : state) :
  execute fuel method l class h o = Ok (v, s) ->
  length (locals s) = length l.
Proof.
  intros H. unfold execute in H. apply run_keeps_locals_length in H.
  exact H.
Qed.

Lemma execute_keeps_locals_size_witness :
  let m := method_of 0 1 2
             [i_bipush; 5; i_istore_1; i_iinc; 1; 3; i_return] in
  length [0; 8] = length [0; 0].
Proof.
  intros m.
  exact (execute_keeps_locals_size 10 m [0; 0]
           {| constant_pool := []; methods := [] |} [] [] None
           {| pc := 6; stack := [5]; idx := 0; locals := [0; 8];
              heap := []; out := [] |} eq_refl).
Defined.

Ltac only_top H :=
  unfold exec, binop, if_cond, if_icmp, load_local, store_local, next in H;
  inv_bind H; try destruct (heap_add _ _); inv_bind H;
  injection H as <-; bounds;
  cbn [stack idx with_pc with_stack with_idx with_locals with_heap with_out];
  (split; [rewrite ?length_insert; reflexivity|]);
  intros j Hj;
  first [ reflexivity
        | apply list_lookup_insert_ne;
          unfold size_t in *; Z.to_euclidean_division_equations; lia ].

(** X13. An instruction writes at most one slot of the stack, the one that is
    the top when it is done: every other slot, live or not, is as it was
    (so the operands it popped are still there, above the top), and the
    stack keeps its size. *)
Theorem exec_writes_only_the_new_top
    (call : callee) (class : class_file_t) (method : method_t)
    (instruction : Z) (s s' : state) :
  0 <= idx s <= Z.of_nat (length (stack s)) ->
  Z.of_nat (length (stack s)) < 2 ^ 16 ->
  exec call class method instruction s = Ok (Next s') ->
  length (stack s') = length (stack s) /\
  forall j : nat,
    Z.of_nat j <> idx s' - 1 -> stack s' !! j = stack s !! j.
Proof.
  intros Hidx Hstk. pattern instruction. apply opcode_cases.
  - unfold implemented. repeat apply Forall_cons_2; try apply Forall_nil_2;
      cbv beta; intros H; try (only_top H; fail).
    + discriminate H.
    + unfold exec in H. inv_bind H. discriminate H.
    + unfold exec, next in H. inv_bind H;
        match goal with
        | P : pop_params _ _ _ _ = Ok _ |- _ =>
            apply pop_params_inv in P as [-> Hn]; [|lia ..]
        end;
        cbn [stack idx with_pc with_stack with_idx with_locals with_heap
             with_out] in *;
        injection H as <-; bounds;
        cbn [stack idx with_pc with_stack with_idx with_locals with_heap
             with_out];
        (split; [rewrite ?length_insert; reflexivity|]);
        intros j Hj;
        first [ reflexivity
              | apply list_lookup_insert_ne;
                unfold size_t in *; Z.to_euclidean_division_equations; lia ].
    + unfold exec in H. inv_bind H. discriminate H.
  - intros Hdef H. rewrite exec_default in H by assumption.
    injection H as <-. split; reflexivity.
Qed.

Lemma exec_writes_only_the_new_top_witness :
  let m := method_of 0 3 0 [i_isub] in
  let s := {| pc := 0; stack := [4; 10; 3]; idx := 3; locals := [];
              heap := []; out := [] |} in
  let s' := {| pc := 1; stack := [4; 7; 3]; idx := 2; locals := [];
               heap := []; out := [] |} in
  length (stack s') = length (stack s) /\
  forall j : nat,
    Z.of_nat j <> idx s' - 1 -> stack s' !! j = stack s !! j.
Proof.
  intros m s s'.
  exact (exec_writes_only_the_new_top (fun _ _ _ _ => Timeout)
           {| constant_pool := []; methods := [] |} m i_isub s s'
           ltac:(subst s; simpl; lia) ltac:(subst s; simpl; lia) eq_refl).
Defined.

(** ** Termination of code without jumps *)

Lemma bind_no_timeout {A B : Type} (e : result A) (k : A -> result B) :
  e <> Timeout -> (forall a, k a <> Timeout) -> bind e k <> Timeout.
Proof. intros He Hk. destruct e; simpl; [apply Hk|congruence ..]. Qed.

Lemma load_no_timeout (a : list Z) (i : Z) : load a i <> Timeout.
Proof.
  unfold load. destruct (0 <=? i); [|discriminate].
  destruct (a !! Z.to_nat i); discriminate.
Qed.

Lemma store_no_timeout (a : list Z) (i v : Z) : store a i v <> Timeout.
Proof.
  unfold store. destruct ((0 <=? i) && (i <? Z.of_nat (length a)));
    discriminate.
Qed.

Lemma assert_no_timeout (c : bool) : assert c <> Timeout.
Proof. destruct c; discriminate. Qed.

Lemma defined_no_timeout (c : bool) : defined c <> Timeout.
Proof. destruct c; discriminate. Qed.

Lemma constant_integer_no_timeout (class : class_file_t) (i : Z) :
  constant_integer class i <> Timeout.
Proof.
  unfold constant_integer. destruct (0 <=? i); [|discriminate].
  destruct (constant_pool class !! Z.to_nat i) as [[ | | ]|]; discriminate.
Qed.

Lemma heap_get_no_timeout (h : heap_t) (ref : Z) : heap_get h ref <> Timeout.
Proof.
  unfold heap_get. destruct (0 <=? ref); [|discriminate].
  destruct (h !! Z.to_nat ref); discriminate.
Qed.

Lemma zero_fill_no_timeout (n : nat) :
  forall (i : Z) (a : list Z), zero_fill n i a <> Timeout.
Proof.
  induction n as [|n IH]; intros i a; [discriminate|].
  cbn [zero_fill]. apply bind_no_timeout; [apply store_no_timeout|].
  intros a'. apply IH.
Qed.

Ltac no_timeout :=
  unfold exec, binop, if_cond, if_icmp, load_local, store_local, next,
    heap_add;
  repeat first
    [ apply load_no_timeout | apply store_no_timeout
    | apply assert_no_timeout | apply defined_no_timeout
    | apply constant_integer_no_timeout
    | apply heap_get_no_timeout | apply zero_fill_no_timeout
    | discriminate
    | apply bind_no_timeout; [|intros ?]
    | match goal with
      | |- (if ?c then _ else _) <> _ => destruct c
      end ].

Ltac pc_grows H :=
  unfold exec, binop, if_cond, if_icmp, load_local, store_local, next in H;
  inv_bind H; try destruct (heap_add _ _); inv_bind H;
  injection H as <-;
  cbn [pc with_pc with_stack with_idx with_locals with_heap with_out];
  unfold size_t; Z.to_euclidean_division_equations; lia.

(** An instruction that is no jump has an outcome of its own, and when it
    ends in a [break] it has moved [pc] forward. *)
Lemma exec_straight (call : callee) (class : class_file_t)
    (method : method_t) (instruction : Z) (s : state) :
  is_jump instruction = false ->
  0 <= pc s < 2 ^ 32 ->
  exec call class method instruction s <> Timeout /\
  forall s', exec call class method instruction s = Ok (Next s') ->
             pc s < pc s'.
Proof.
  intros Hj Hpc. revert Hj. pattern instruction. apply opcode_cases.
  - unfold implemented. repeat apply Forall_cons_2; try apply Forall_nil_2;
      cbv beta; intros Hj; try discriminate Hj;
      (split; [no_timeout|intros s' H; try (pc_grows H; fail)]).
    + discriminate H.
    + unfold exec in H. inv_bind H. discriminate H.
    + unfold exec in H. inv_bind H. discriminate H.
  - intros Hdef _. rewrite exec_default by assumption. split.
    + discriminate.
    + intros s' H. injection H as <-. cbn [pc with_pc].
      unfold size_t. Z.to_euclidean_division_equations. lia.
Qed.

Lemma straight_line_opcode (method : method_t) (s : state) (b : Z) :
  straight_line method = true ->
  load (code (mcode method)) (pc s) = Ok b -> is_jump b = false.
Proof.
  intros Hs Hb. apply load_inv in Hb as [_ Hb].
  unfold straight_line in Hs. rewrite forallb_forall in Hs.
  apply negb_true_iff. apply Hs.
  apply list_elem_of_In. apply (list_elem_of_lookup_2 _ _ _ Hb).
Qed.

Lemma run_straight (class : class_file_t) (method : method_t) :
  straight_line method = true ->
  code_length (mcode method) < 2 ^ 32 ->
  forall (fuel : nat) (s : state),
  0 <= pc s ->
  Z.max 0 (code_length (mcode method) - pc s) < Z.of_nat fuel ->
  run fuel class method s <> Timeout.
Proof.
  intros Hs Hlen. induction fuel as [|fuel IH]; intros s Hpc Hf.
  - exfalso. lia.
  - rewrite run_S. unfold returned.
    destruct (Z.ltb_spec (pc s) (code_length (mcode method)));
      [|discriminate].
    destruct (load (code (mcode method)) (pc s)) as [b| | |] eqn:E;
      cbn [bind]; try discriminate;
      [|exfalso; exact (load_no_timeout _ _ E)].
    destruct (exec_straight (call_execute fuel class) class method b s
                (straight_line_opcode method s b Hs E) ltac:(lia))
      as [Hno Hup].
    destruct (exec (call_execute fuel class) class method b s)
      as [[s'|v s']| | |]; cbn [bind]; try discriminate.
    + specialize (Hup s' eq_refl). apply IH; lia.
    + exfalso. apply Hno. reflexivity.
Qed.

(** X14. Code without jumps terminates.  When no byte of the code of a method
    is a branch opcode or [invokestatic], every turn of the loop moves
    [pc] forward, so [execute] comes to an end (a return, a fault or an
    access outside an array) within [code_length] turns, whatever the
    locals and the heap. *)
Theorem straight_line_code_terminates
    (fuel : nat) (method : method_t) (l : list Z) (class : class_file_t)
    (h : heap_t) (o : list Z) :
  straight_line method = true ->
  code_length (mcode method) < 2 ^ 32 ->
  (length (code (mcode method)) < fuel)%nat ->
  execute fuel method l class h o <> Timeout.
Proof.
  intros Hs Hlen Hf. unfold execute.
  apply run_straight; try assumption.
  - simpl. lia.
  - unfold code_length. simpl. lia.
Qed.

Lemma straight_line_code_terminates_witness :
  let m := method_of 0 2 0
             [i_iconst_3; i_iconst_4; i_iadd; i_invokevirtual; 0; 0;
              i_return] in
  execute 8 m [] {| constant_pool := []; methods := [] |} [] [] <> Timeout.
Proof.
  intros m.
  exact (straight_line_code_terminates 8 m []
           {| constant_pool := []; methods := [] |} [] [] eq_refl
           ltac:(subst m; unfold code_length; simpl; lia)
           ltac:(subst m; simpl; lia)).
Defined.

(** ** Edges of arrays and of calls *)

(** X15. [iastore] and [iaload] do not check the index against the length: the
    cell they use is [index + 1] of the array with its length in cell 0.
    So the index -1 is the length cell: [iastore] of [(r, -1, v)] makes a
    later [arraylength] of [r] yield [v], and [iaload] of [(r, -1)] yields
    the length. *)
Theorem array_index_minus_one_is_length_cell
    (call : callee) (class : class_file_t) (method : method_t) (t : state)
    (arr : list Z) (len : Z) :
  running method t ->
  arr !! 0%nat = Some len ->
  (3 <= idx t -> 0 <= slot 3 t ->
   heap t !! Z.to_nat (slot 3 t) = Some arr -> slot 2 t = -1 ->
   exists t1,
     exec call class method i_iastore t = Ok (Next t1) /\
     idx t1 = idx t - 3 /\ pc t1 = pc t + 1 /\
     forall u, running method u -> heap u = heap t1 -> 1 <= idx u ->
       slot 1 u = slot 3 t ->
       exec call class method i_arraylength u
       = Ok (Next (with_pc (pc u + 1) (pushed (slot 1 t) (popped 1 u))))) /\
  (2 <= idx t -> 0 <= slot 2 t ->
   heap t !! Z.to_nat (slot 2 t) = Some arr -> slot 1 t = -1 ->
   exec call class method i_iaload t
   = Ok (Next (with_pc (pc t + 1) (pushed len (popped 2 t))))).
Proof.
  intros Hrun Hcell. pose proof Hrun as (Hpc & Hlen & Hidx & Hstk).
  pose proof (lookup_lt_Some _ _ _ Hcell) as Hne.
  split.
  - intros H3 Hr Harr Hi. eexists. split; [|split; [|split]].
    + unfold exec. rewrite (load_slot t 3) by lia. cbn [bind].
      unfold heap_get. destruct (Z.leb_spec 0 (slot 3 t)); [|lia].
      rewrite Harr. cbn [bind].
      rewrite (load_slot t 2), (load_slot t 1) by lia. cbn [bind].
      rewrite Hi. change (int32 (-1 + 1)) with 0.
      rewrite store_in by lia. cbn [bind]. reflexivity.
    + cbn [idx with_idx]. rewrite size_t_id by lia. reflexivity.
    + cbn [pc with_idx with_pc]. rewrite size_t_id by lia. reflexivity.
    + intros u Hu Hh H1 Hs.
      apply (exec_arraylength call class method u
               (<[Z.to_nat 0 := slot 1 t]> arr)); try assumption.
      * rewrite Hs. exact Hr.
      * rewrite Hh, Hs. cbn [heap with_idx with_pc with_heap].
        unfold heap_put. apply list_lookup_insert_eq.
        apply lookup_lt_Some in Harr. exact Harr.
      * apply list_lookup_insert_eq. exact Hne.
  - intros H2 Hr Harr Hi. unfold exec.
    rewrite (load_slot t 2) by lia. cbn [bind]. unfold heap_get.
    destruct (Z.leb_spec 0 (slot 2 t)); [|lia]. rewrite Harr. cbn [bind].
    rewrite (load_slot t 1) by lia. cbn [bind].
    rewrite Hi. change (int32 (-1 + 1)) with 0.
    rewrite (load_lookup _ _ len) by (lia || assumption). cbn [bind].
    rewrite !size_t_id by lia. rewrite store_in by lia. cbn [bind].
    unfold next. do 2 f_equal.
    apply state_eq; simpl; try reflexivity; lia.
Qed.

Lemma array_index_minus_one_is_length_cell_witness :
  let m := method_of 0 3 0 [i_iaload; i_return] in
  let t := {| pc := 0; stack := [0; -1; 0]; idx := 2; locals := [];
              heap := [[3; 7; 8; 9]]; out := [] |} in
  exec (fun _ _ _ _ => Timeout) {| constant_pool := []; methods := [] |}
    m i_iaload t
  = Ok (Next {| pc := 1; stack := [3; -1; 0]; idx := 1; locals := [];
                heap := [[3; 7; 8; 9]]; out := [] |}).
Proof.
  intros m t.
  assert (R : running m t)
    by (subst m t; unfold running, code_length; simpl; lia).
  exact (proj2 (array_index_minus_one_is_length_cell
                  (fun _ _ _ _ => Timeout)
                  {| constant_pool := []; methods := [] |} m t
                  [3; 7; 8; 9] 3 R eq_refl)
           ltac:(subst t; simpl; lia) ltac:(subst t; vm_compute; discriminate)
           eq_refl eq_refl).
Defined.

Lemma pop_params_underflow (n : nat) (stk : list Z) :
  Z.of_nat (length stk) < 2 ^ 16 ->
  forall (local_queue : list Z) (i : Z),
  0 <= i < Z.of_nat n -> i <= Z.of_nat (length stk) ->
  pop_params n local_queue stk i = Undefined.
Proof.
  intros Hstk. induction n as [|n IH]; intros lq i Hi Hle; [lia|].
  cbn [pop_params]. destruct (Z.eq_dec i 0) as [->|Hnz].
  - rewrite load_out; [reflexivity|]. unfold size_t.
    change ((0 - 1) mod 2 ^ 64) with 18446744073709551615. lia.
  - rewrite size_t_id by lia.
    destruct (lookup_lt_is_Some_2 stk (Z.to_nat (i - 1))) as [v Hv]; [lia|].
    rewrite (load_lookup _ _ v) by (lia || assumption). cbn [bind].
    unfold store.
    destruct ((0 <=? Z.of_nat n) && (Z.of_nat n <? Z.of_nat (length lq)));
      cbn [bind]; [|reflexivity].
    apply IH; lia.
Qed.

(** X17. [invokestatic] pops as many values as the callee has parameters
    without looking at the depth of the stack: with fewer values on the
    stack, the copy of the arguments reads outside the stack. *)
Theorem invokestatic_underflow_is_out_of_bounds
    (call : callee) (class : class_file_t) (method : method_t) (s : state)
    (b1 b2 : Z) (m : method_t) :
  running method s ->
  operand method s 1 = Some b1 -> operand method s 2 = Some b2 ->
  find_method_from_index (imm16 b1 b2) class = Some m ->
  idx s < get_number_of_parameters m ->
  exec call class method i_invokestatic s = Undefined.
Proof.
  intros (Hpc & Hlen & Hidx & Hstk) Hb1 Hb2 Hm Hp.
  unfold exec, operand in *.
  rewrite (size_t_id (pc s + 1)), (size_t_id (pc s + 2)) by lia.
  rewrite (load_lookup _ _ b1) by (lia || assumption). cbn [bind].
  rewrite (load_lookup _ _ b2) by (lia || assumption). cbn [bind].
  rewrite Hm. rewrite pop_params_underflow by lia. reflexivity.
Qed.

Lemma invokestatic_underflow_is_out_of_bounds_witness :
  let mul := method_of 2 2 2 [i_iload_0; i_iload_1; i_imul; i_ireturn] in
  let main := method_of 1 3 1 [i_iconst_2; i_invokestatic; 0; 1; i_return] in
  let class := {| constant_pool := [CONSTANT_Methodref_info 1%nat];
                  methods := [main; mul] |} in
  let s := {| pc := 1; stack := [2; 0; 0]; idx := 1; locals := [0];
              heap := []; out := [] |} in
  exec (call_execute 5 class) class main i_invokestatic s = Undefined.
Proof.
  intros mul main class s.
  assert (R : running main s)
    by (subst main s; unfold running, code_length; simpl; lia).
  exact (invokestatic_underflow_is_out_of_bounds (call_execute 5 class)
           class main s 0 1 mul R eq_refl eq_refl eq_refl
           ltac:(subst mul s; simpl; lia)).
Defined.

(** ** [main] *)

(** X22. The exit status of [main].  It is 1, with nothing printed, exactly
    when [argc] is not 2.  It is 0 exactly when [argc] is 2, the class
    file was opened and closed, [main] was found, and [execute], started
    on it with every local 0 and an empty heap, returned void; the lines
    printed are then those of that run.  A [main] method that returns a
    value, a missing [main] and a file that does not open end in a failed
    [assert] instead. *)
Theorem main_exit_status
    (fuel : nat) (argc : Z) (class_file closed : bool)
    (class : class_file_t) (main_method : option method_t) :
  (forall o,
     main fuel argc class_file closed class main_method = Ok (1, o)
     <-> argc <> 2 /\ o = []) /\
  (forall o,
     main fuel argc class_file closed class main_method = Ok (0, o)
     <-> argc = 2 /\ class_file = true /\ closed = true /\
         exists m s,
           main_method = Some m /\
           execute fuel m
             (replicate (Z.to_nat (max_locals (mcode m))) 0) class [] []
           = Ok (None, s) /\
           out s = o) /\
  (argc = 2 ->
   class_file = false \/ closed = false \/ main_method = None \/
   (exists m v s,
      main_method = Some m /\
      execute fuel m
        (replicate (Z.to_nat (max_locals (mcode m))) 0) class [] []
      = Ok (Some v, s)) ->
   main fuel argc class_file closed class main_method = Fault).
Proof.
  unfold main, heap_init.
  destruct (Z.eqb_spec argc 2) as [E|E]; cbn [negb].
  - split; [|split].
    + intros o. split; [|intros [H _]; contradiction].
      destruct class_file, closed; cbn [assert bind]; try discriminate.
      destruct main_method as [m|]; [|discriminate].
      destruct (execute fuel m _ class [] []) as [[[v|] s]| | |];
        cbn [bind fst snd has_value negb assert]; discriminate.
    + intros o. split.
      * destruct class_file, closed; cbn [assert bind]; try discriminate.
        destruct main_method as [m|]; [|discriminate].
        destruct (execute fuel m _ class [] []) as [[[v|] s]| | |] eqn:X;
          cbn [bind fst snd has_value negb assert]; try discriminate.
        intros [= <-]. repeat split; try assumption.
        exists m, s. repeat split. exact X.
      * intros (_ & -> & -> & m & s & -> & X & <-). cbn [assert bind].
        rewrite X. reflexivity.
    + intros _ [-> |[-> |[-> |(m & v & s & -> & X)]]].
      * reflexivity.
      * destruct class_file; reflexivity.
      * destruct class_file, closed; reflexivity.
      * destruct class_file, closed; cbn [assert bind]; try reflexivity.
        rewrite X. reflexivity.
  - split; [|split].
    + intros o. split.
      * intros [= <-]. split; [assumption|reflexivity].
      * intros [_ ->]. reflexivity.
    + intros o. split; [discriminate|]. intros [H _]. contradiction.
    + intros H. contradiction.
Qed.


Lemma main_exit_status_witness :
  let m := method_of 1 1 1
             [i_getstatic; 0; 0; i_iload_0; i_invokevirtual; 0; 0;
              i_return] in
  let class := {| constant_pool := []; methods := [m] |} in
  main 10 2 true true class (Some m) = Ok (0, [0]).
Proof.
  intros m class.
  apply (proj2 (proj1 (proj2
           (main_exit_status 10 2 true true class (Some m))) [0])).
  split; [reflexivity|]. split; [reflexivity|]. split; [reflexivity|].
  exists m, {| pc := 7; stack := [0]; idx := 0; locals := [0];
               heap := []; out := [0] |}.
  split; [reflexivity|]. split; reflexivity.
Defined.

(** ** The stack is not checked *)

Lemma load_cases (a : list Z) (i : Z) :
  (exists v, load a i = Ok v) \/ load a i = Undefined.
Proof.
  unfold load. destruct (0 <=? i); [|right; reflexivity].
  destruct (a !! Z.to_nat i) as [v|]; [left; exists v|right]; reflexivity.
Qed.

Lemma load_below_empty (s : state) (k : Z) :
  idx s = 0 -> 0 < k <= 3 -> Z.of_nat (length (stack s)) < 2 ^ 16 ->
  load (stack s) (size_t (idx s - k)) = Undefined.
Proof.
  intros E Hk H. apply load_out. rewrite E. unfold size_t.
  Z.to_euclidean_division_equations. lia.
Qed.

Ltac undefined_step :=
  repeat first
    [ reflexivity
    | rewrite load_below_empty by (assumption || lia); cbn [bind]
    | rewrite store_out by lia; cbn [bind]
    | match goal with
      | |- context [bind (load ?a ?i) _] =>
          let v := fresh "v" in
          let E := fresh "E" in
          destruct (load_cases a i) as [[v E]|E]; rewrite E; cbn [bind]
      | |- context [bind (constant_integer ?c ?i) _] =>
          let E := fresh "E" in
          destruct (constant_integer c i) as [?| | |] eqn:E; cbn [bind];
          try (exfalso; revert E; apply constant_integer_no_timeout);
          try (exfalso; revert E; unfold constant_integer;
               destruct (0 <=? i); [|discriminate];
               destruct (constant_pool c !! Z.to_nat i) as [[ | | ]|];
               discriminate)
      end ].

(** X18. No instruction checks the depth of the stack before it pops: with
    nothing on the stack, the first read of the stack by an instruction
    that pops is outside the stack.  For [idiv], [irem], the shifts and
    [newarray] that read is the one of the operand of their [assert]. *)
Theorem pop_of_empty_stack_is_out_of_bounds
    (call : callee) (class : class_file_t) (method : method_t)
    (instruction : Z) (s : state) :
  In instruction pops ->
  idx s = 0 -> Z.of_nat (length (stack s)) < 2 ^ 16 ->
  exec call class method instruction s = Undefined.
Proof.
  intros Hin H0 Hstk. unfold pops in Hin. cbn [In] in Hin.
  repeat (destruct Hin as [<- |Hin]); [..|contradiction];
    unfold exec, binop, if_cond, if_icmp, store_local; undefined_step.
Qed.

Lemma pop_of_empty_stack_is_out_of_bounds_witness :
  let m := method_of 0 2 0 [i_idiv] in
  let s := {| pc := 0; stack := [0; 0]; idx := 0; locals := [];
              heap := []; out := [] |} in
  exec (fun _ _ _ _ => Timeout) {| constant_pool := []; methods := [] |}
    m i_idiv s
  = Undefined.
Proof.
  intros m s.
  apply (pop_of_empty_stack_is_out_of_bounds (fun _ _ _ _ => Timeout)
           {| constant_pool := []; methods := [] |} m i_idiv s).
  - unfold pops. cbn [In]. tauto.
  - reflexivity.
  - subst s. simpl. lia.
Defined.

(** X19. No instruction checks the depth of the stack before it pushes: with
    [idx] at the size of the stack, every instruction that pushes is an
    access outside the stack. *)
Theorem push_on_full_stack_is_out_of_bounds
    (call : callee) (class : class_file_t) (method : method_t)
    (instruction : Z) (s : state) :
  In instruction pushes ->
  idx s = Z.of_nat (length (stack s)) ->
  exec call class method instruction s = Undefined.
Proof.
  intros Hin Hfull. unfold pushes in Hin. cbn [In] in Hin.
  repeat (destruct Hin as [<- |Hin]); [..|contradiction];
    unfold exec, load_local; undefined_step.
Qed.

Lemma push_on_full_stack_is_out_of_bounds_witness :
  let m := method_of 0 1 0 [i_iconst_1; i_iconst_2] in
  let s := {| pc := 1; stack := [1]; idx := 1; locals := [];
              heap := []; out := [] |} in
  exec (fun _ _ _ _ => Timeout) {| constant_pool := []; methods := [] |}
    m i_iconst_2 s
  = Undefined.
Proof.
  intros m s.
  apply (push_on_full_stack_is_out_of_bounds (fun _ _ _ _ => Timeout)
           {| constant_pool := []; methods := [] |} m i_iconst_2 s).
  - unfold pushes. cbn [In]. tauto.
  - reflexivity.
Defined.

(** ** The length of an instruction and what it leaves alone *)

Lemma instruction_length_default (instruction : Z) :
  is_implemented instruction = false -> instruction_length instruction = 1.
Proof.
  intros H. unfold instruction_length.
  destruct instruction as [|p|p]; [discriminate H| |reflexivity].
  do 8 (try destruct p as [p|p|]); try reflexivity;
    vm_compute in H; discriminate H.
Qed.

Ltac pc_step H :=
  unfold exec, binop, if_cond, if_icmp, load_local, store_local, next in H;
  inv_bind H; try destruct (heap_add _ _); inv_bind H;
  injection H as <-;
  cbn [pc with_pc with_stack with_idx with_locals with_heap with_out];
  unfold instruction_length, size_t; Z.to_euclidean_division_equations; lia.

(** X20. Every instruction that is not a branch and ends in a [break] has
    moved [pc] by its own length: 1 byte, 2 for [bipush], [ldc], [iload],
    [istore], [aload], [astore] and [newarray], 3 for [sipush], [iinc],
    [getstatic], [invokevirtual] and [invokestatic]; an opcode that is no
    case of the [switch] counts for 1, whatever operands it was meant to
    have. *)
Theorem instruction_advances_pc_by_its_length
    (call : callee) (class : class_file_t) (method : method_t)
    (instruction : Z) (s s' : state) :
  branch_test instruction 0 0 = None ->
  0 <= pc s < 2 ^ 32 ->
  exec call class method instruction s = Ok (Next s') ->
  pc s' = pc s + instruction_length instruction.
Proof.
  intros Hb Hpc. revert Hb. pattern instruction. apply opcode_cases.
  - unfold implemented. repeat apply Forall_cons_2; try apply Forall_nil_2;
      cbv beta; intros Hb H; try discriminate Hb; try (pc_step H; fail).
    + discriminate H.
    + unfold exec in H. inv_bind H. discriminate H.
    + unfold exec in H. inv_bind H. discriminate H.
  - intros Hdef _ H. rewrite exec_default in H by assumption.
    rewrite instruction_length_default by assumption.
    injection H as <-. cbn [pc with_pc]. apply size_t_id. lia.
Qed.

Lemma instruction_advances_pc_by_its_length_witness :
  let m := method_of 0 1 0 [i_sipush; 1; 2] in
  let s := {| pc := 0; stack := [0]; idx := 0; locals := [];
              heap := []; out := [] |} in
  let s' := {| pc := 3; stack := [258]; idx := 1; locals := [];
               heap := []; out := [] |} in
  pc s' = pc s + instruction_length i_sipush.
Proof.
  intros m s s'.
  exact (instruction_advances_pc_by_its_length (fun _ _ _ _ => Timeout)
           {| constant_pool := []; methods := [] |} m i_sipush s s'
           eq_refl ltac:(subst s; simpl; lia) eq_refl).
Defined.

Ltac frame_conditions H :=
  unfold exec, binop, if_cond, if_icmp, load_local, store_local, next in H;
  inv_bind H; try destruct (heap_add _ _); inv_bind H;
  injection H as <-;
  cbn [landing locals heap out with_pc with_stack with_idx with_locals
       with_heap with_out];
  repeat split; intros W; first [reflexivity | discriminate W].

(** X21. What an instruction leaves alone.  Only [istore], [astore], their
    one-byte forms and [iinc] change the locals; only [newarray],
    [iastore] and [invokestatic] change the heap; only [invokevirtual] and
    [invokestatic] print.  Whatever the other instructions do, the locals,
    the heap and the printed lines are the same after them. *)
Theorem exec_frame_conditions
    (call : callee) (class : class_file_t) (method : method_t)
    (instruction : Z) (s : state) (r : step_result) :
  exec call class method instruction s = Ok r ->
  (writes_locals instruction = false -> locals (landing r) = locals s) /\
  (writes_heap instruction = false -> heap (landing r) = heap s) /\
  (writes_out instruction = false -> out (landing r) = out s).
Proof.
  pattern instruction. apply opcode_cases.
  - unfold implemented. repeat apply Forall_cons_2; try apply Forall_nil_2;
      cbv beta; intros H; frame_conditions H.
  - intros Hdef H. rewrite exec_default in H by assumption.
    injection H as <-. repeat split.
Qed.

Lemma exec_frame_conditions_witness :
  let m := method_of 0 2 1 [i_iadd] in
  let s := {| pc := 0; stack := [1; 2]; idx := 2; locals := [5];
              heap := [[1; 9]]; out := [4] |} in
  let r := Next {| pc := 1; stack := [3; 2]; idx := 1; locals := [5];
                   heap := [[1; 9]]; out := [4] |} in
  (writes_locals i_iadd = false -> locals (landing r) = locals s) /\
  (writes_heap i_iadd = false -> heap (landing r) = heap s) /\
  (writes_out i_iadd = false -> out (landing r) = out s).
Proof.
  intros m s r.
  exact (exec_frame_conditions (fun _ _ _ _ => Timeout)
           {| constant_pool := []; methods := [] |} m i_iadd s r eq_refl).
Defined.

(** X16. [iastore] and [iaload] do not check the index: for an index [i]
    of the [int32_t] range with [i < -1] or [i + 1] not below the number
    of cells, the cell [iastore] writes and the cell [iaload] reads are
    outside the array. *)
Theorem array_access_out_of_range_is_out_of_bounds
    (call : callee) (class : class_file_t) (method : method_t) (t : state)
    (arr : list Z) (i : Z) :
  running method t ->
  - 2 ^ 31 <= i < 2 ^ 31 ->
  ~ (-1 <= i /\ i + 1 < Z.of_nat (length arr)) ->
  (3 <= idx t -> 0 <= slot 3 t ->
   heap t !! Z.to_nat (slot 3 t) = Some arr -> slot 2 t = i ->
   exec call class method i_iastore t = Undefined) /\
  (2 <= idx t -> 0 <= slot 2 t ->
   heap t !! Z.to_nat (slot 2 t) = Some arr -> slot 1 t = i ->
   exec call class method i_iaload t = Undefined).
Proof.
  intros (Hpc & Hlen & Hidx & Hstk) Hi Hout.
  assert (O : ~ (0 <= int32 (i + 1) < Z.of_nat (length arr))).
  { destruct (Z.eq_dec i (2 ^ 31 - 1)) as [->|Hne].
    - change (int32 (2 ^ 31 - 1 + 1)) with (- 2 ^ 31). lia.
    - rewrite int32_id by lia. lia. }
  split.
  - intros H3 Hr Harr Hs. unfold exec.
    rewrite (load_slot t 3) by lia. cbn [bind]. unfold heap_get.
    destruct (Z.leb_spec 0 (slot 3 t)); [|lia]. rewrite Harr. cbn [bind].
    rewrite (load_slot t 2), (load_slot t 1) by lia. cbn [bind].
    rewrite Hs. rewrite store_out by exact O. reflexivity.
  - intros H2 Hr Harr Hs. unfold exec.
    rewrite (load_slot t 2) by lia. cbn [bind]. unfold heap_get.
    destruct (Z.leb_spec 0 (slot 2 t)); [|lia]. rewrite Harr. cbn [bind].
    rewrite (load_slot t 1) by lia. cbn [bind].
    rewrite Hs. rewrite load_out by exact O. reflexivity.
Qed.

Lemma array_access_out_of_range_is_out_of_bounds_witness :
  let m := method_of 0 2 0 [i_iaload] in
  let t := {| pc := 0; stack := [0; 3]; idx := 2; locals := [];
              heap := [[3; 7; 8; 9]]; out := [] |} in
  exec (fun _ _ _ _ => Timeout) {| constant_pool := []; methods := [] |}
    m i_iaload t
  = Undefined.
Proof.
  intros m t.
  assert (R : running m t)
    by (subst m t; unfold running, code_length; simpl; lia).
  exact (proj2 (array_access_out_of_range_is_out_of_bounds
                  (fun _ _ _ _ => Timeout)
                  {| constant_pool := []; methods := [] |} m t
                  [3; 7; 8; 9] 3 R ltac:(lia) ltac:(simpl; lia))
           ltac:(subst t; simpl; lia) ltac:(subst t; vm_compute; discriminate)
           eq_refl eq_refl).
Defined.
